(** * Retrieval and index-catalog store of auto-dev-vscode

    A shallow embedding of [src/code-search/database/SqliteDb.ts]: the
    [SqliteDb] singleton and the [Retrieval] base class
    ([deduplicateArray], [deduplicateChunks], [retrieveGit],
    [retrieveFts]).

    - JavaScript numbers are the type [Js.number]; strings are
      [String.string], one [ascii] per code unit;
    - [async] code is sequential state passing: a computation of type
      [M W A] takes the world, gives back a value or a thrown exception
      and the new world.  [await] of a rejected promise is a [Throw];
    - every call to a collaborator (source control, full-text engine,
      console, sqlite) is appended to a trace kept in the world, so that
      "is called with", "is not called" and "was raised by" are statements
      about that trace. *)

From Stdlib Require Import ZArith QArith Lqa String Ascii List Sorted.
From stdpp Require Import base list sorting strings.

Local Open Scope string_scope.
Local Open Scope list_scope.
Local Open Scope Z_scope.

(** ** The JavaScript fragment the code uses *)

Module Js.

(** *** Numbers

    A double is NaN, an infinity or a finite value; a finite double is a
    dyadic rational, kept here as a [Q].  The two zeros are one value
    ([0 === -0], and no operation used here tells them apart). *)
Inductive number : Type :=
| NaN
| NegInfinity
| Finite (q : Q)
| PosInfinity.

(** [x > y]. *)
Definition gt (x y : number) : bool :=
  match x, y with
  | NaN, _ | _, NaN => false
  | NegInfinity, _ => false
  | Finite _, NegInfinity => true
  | Finite p, Finite q => negb (Qle_bool p q)
  | Finite _, PosInfinity => false
  | PosInfinity, PosInfinity => false
  | PosInfinity, _ => true
  end.

(** [x >= y]. *)
Definition ge (x y : number) : bool :=
  match x, y with
  | NaN, _ | _, NaN => false
  | NegInfinity, NegInfinity => true
  | NegInfinity, _ => false
  | Finite _, NegInfinity => true
  | Finite p, Finite q => Qle_bool q p
  | Finite _, PosInfinity => false
  | PosInfinity, _ => true
  end.

(** [x === y] on numbers. *)
Definition eq (x y : number) : bool :=
  match x, y with
  | NegInfinity, NegInfinity => true
  | Finite p, Finite q => Qeq_bool p q
  | PosInfinity, PosInfinity => true
  | _, _ => false
  end.

(** [x - y].  The difference of two finite doubles is rounded, and may
    overflow to an infinity; rounding and overflow keep the sign of the
    exact difference (two different doubles never have a zero difference),
    and the sign is all [sort] reads.  The exact difference stands for the
    rounded one. *)
Definition sub (x y : number) : number :=
  match x, y with
  | NaN, _ | _, NaN => NaN
  | NegInfinity, NegInfinity => NaN
  | NegInfinity, _ => NegInfinity
  | Finite _, NegInfinity => PosInfinity
  | Finite p, Finite q => Finite (p - q)
  | Finite _, PosInfinity => NegInfinity
  | PosInfinity, PosInfinity => NaN
  | PosInfinity, _ => PosInfinity
  end.

(** The double written [0.6]: 5404319552844595 / 2^53. *)
Definition lit_0_6 : number := Finite (5404319552844595 # 9007199254740992).

(** *** Arrays *)

(** [a[k]] read as a number: [undefined] out of range, and [undefined]
    in arithmetic is NaN. *)
Definition at_number (a : list number) (k : Z) : number :=
  if k <? 0 then NaN else default NaN (a !! Z.to_nat k).

(** The order [Array.prototype.sort] derives from [comparefn(x, y)]: a
    negative value puts [x] first, a positive one [y], and NaN counts as
    [0]. *)
Definition SortCompare {A} (comparefn : A -> A -> number) (x y : A) : comparison :=
  match comparefn x y with
  | NaN => Eq
  | NegInfinity => Lt
  | Finite v => (v ?= 0)%Q
  | PosInfinity => Gt
  end.

Fixpoint sort_insert {A} (comparefn : A -> A -> number) (x : A) (sorted : list A) : list A :=
  match sorted with
  | [] => [x]
  | y :: rest =>
      match SortCompare comparefn x y with
      | Gt => y :: sort_insert comparefn x rest
      | _ => x :: y :: rest
      end
  end.

(** [a.sort(comparefn)].  The sort is stable (ECMAScript 2019); an element
    is inserted in front of the elements that followed it, and moves past
    those only that the comparison puts strictly before it. *)
Definition sort {A} (comparefn : A -> A -> number) (a : list A) : list A :=
  foldr (sort_insert comparefn) [] a.

(** [a.slice(0, end)] for an integer [end]: a negative [end] counts from
    the end of the array. *)
Definition slice0 {A} (a : list A) (end_ : Z) : list A :=
  if end_ <? 0
  then take (Z.to_nat (Z.max (Z.of_nat (length a) + end_) 0)) a
  else take (Z.to_nat end_) a.

(** *** Strings *)

(** A string is its sequence of code units, an [ascii] each: the code
    units from 256 on are outside the model.  White space and line
    terminators among the code units below 256: TAB, LF, VT, FF, CR,
    SPACE, NBSP. *)
Definition is_white_space (c : ascii) : bool :=
  match nat_of_ascii c with
  | 9%nat | 10%nat | 11%nat | 12%nat | 13%nat | 32%nat | 160%nat => true
  | _ => false
  end.

Fixpoint trimStart (s : string) : string :=
  match s with
  | EmptyString => EmptyString
  | String c s' => if is_white_space c then trimStart s' else s
  end.

Fixpoint trimEnd (s : string) : string :=
  match s with
  | EmptyString => EmptyString
  | String c s' =>
      match trimEnd s' with
      | EmptyString => if is_white_space c then EmptyString else String c EmptyString
      | t => String c t
      end
  end.

(** [s.trim()]. *)
Definition trim (s : string) : string := trimEnd (trimStart s).

(** [s.split(sep)] for a separator of one code unit.  The empty string
    splits into one empty piece. *)
Fixpoint split (sep : ascii) (s : string) : list string :=
  match s with
  | EmptyString => [EmptyString]
  | String c s' =>
      if Ascii.eqb c sep then EmptyString :: split sep s'
      else match split sep s' with
           | [] => [String c EmptyString]
           | piece :: pieces => String c piece :: pieces
           end
  end.

(** [a.join(sep)]. *)
Fixpoint join (sep : string) (a : list string) : string :=
  match a with
  | [] => EmptyString
  | [piece] => piece
  | piece :: rest => piece +:+ sep +:+ join sep rest
  end.

(** The double quote character, and the template literal that wraps
    [element] in double quotes. *)
Definition dquote : string := String "034"%char EmptyString.
Definition quoted (element : string) : string := dquote +:+ element +:+ dquote.

End Js.

(** ** Data *)

(** [Chunk] (code-search/chunk/_base/Chunk). *)
Module Chunk.
Record t : Type := mk {
  language : string;
  digest : string;
  filepath : string;
  content : string;
  startLine : Z;
  endLine : Z;
  index : Z
}.
End Chunk.

(** [Commit] (types/git): the two fields the code reads. *)
Module Commit.
Record t : Type := mk {
  hash : string;
  message : string
}.
End Commit.

(** [RetrievalQueryTerm]: the fields the code reads.  [Tag] is the type of
    the elements of [tags]. *)
Module RetrievalQueryTerm.
Record t (Tag : Type) : Type := mk {
  query : string;
  tags : list Tag;
  n : Z;
  filterDirectory : option string;
  language : option string
}.
Arguments mk {Tag}.
Arguments query {Tag}.
Arguments tags {Tag}.
Arguments n {Tag}.
Arguments filterDirectory {Tag}.
Arguments language {Tag}.
End RetrievalQueryTerm.

(** What a JavaScript computation throws. *)
Inductive exn : Type :=
| Error (message : string)
| TypeError (message : string).

(** A value, or the exception that replaced it. *)
Inductive outcome (A : Type) : Type :=
| Ok (a : A)
| Throw (e : exn).
Arguments Ok {A}.
Arguments Throw {A}.

(** The seven arguments of [FullTextSearchCodebaseIndex.retrieve], in the
    order of the call. *)
Module FtsArgs.
Record t (Tag : Type) : Type := mk {
  tags : list Tag;
  text : string;
  n : Z;
  directory : option string;
  filterPaths : option (list string);
  bm25Threshold : Js.number;
  language : option string
}.
Arguments mk {Tag}.
Arguments tags {Tag}.
Arguments text {Tag}.
Arguments n {Tag}.
Arguments directory {Tag}.
Arguments filterPaths {Tag}.
Arguments bm25Threshold {Tag}.
Arguments language {Tag}.
End FtsArgs.

(** ** Collaborators

    What the file imports and does not define.  [Env] is the state of
    everything outside the program (file system, repository, search
    index); a collaborator reads it, may change it, and may throw. *)
Class Host : Type := {
  Tag : Type;
  DatabaseConnection : Type;
  Env : Type;
  (** [TfIdfChunkSearch]: [addDocuments(docs)] on a new instance, then
      [search(query)]. *)
  tfidf_search : list string -> string -> list Js.number;
  (** [RETRIEVAL_PARAMS.bm25Threshold]. *)
  RETRIEVAL_PARAMS_bm25Threshold : Js.number;
  (** [new FullTextSearchCodebaseIndex().retrieve(...)]. *)
  fts_retrieve : FtsArgs.t Tag -> Env -> outcome (list Chunk.t) * Env;
  (** [getIndexFolderPath()] of LanceDbIndex. *)
  getIndexFolderPath : Env -> outcome string * Env;
  (** [path.join(a, b)]. *)
  path_join : string -> string -> string;
  (** [fs.existsSync(p)]: reads the file system, never throws. *)
  fs_existsSync : string -> Env -> bool;
  (** [sqlite.open({ filename, driver: sqlite3.Database })]. *)
  sqlite_open : string -> Env -> outcome DatabaseConnection * Env;
  (** [db.exec(sql)]. *)
  db_exec : DatabaseConnection -> string -> Env -> outcome unit * Env
}.

(** [GitAction]: the two methods [retrieveGit] calls. *)
Record GitAction `{Host} : Type := mkGitAction {
  git_getHistoryCommits : Env -> outcome (list Commit.t) * Env;
  git_getChangeByHash : string -> Env -> outcome string * Env
}.
Arguments mkGitAction {_}.

(** ** Worlds and computations *)

(** One entry per call to a collaborator, with what it answered. *)
Inductive event `{Host} : Type :=
| GetHistoryCommits (r : outcome (list Commit.t))
| GetChangeByHash (hash : string) (r : outcome string)
| FtsRetrieve (args : FtsArgs.t Tag) (r : outcome (list Chunk.t))
| ConsoleWarn (message : string) (e : exn)
| GetIndexFolderPath (r : outcome string)
| SqliteOpen (filename : string) (r : outcome DatabaseConnection)
| DbExec (db : DatabaseConnection) (sql : string) (r : outcome unit).

(** The static fields of [SqliteDb], the trace of the calls made so far
    and the outside. *)
Record World `{Host} : Type := mkWorld {
  SqliteDb_db : option DatabaseConnection;
  SqliteDb_indexSqlitePath : string;
  trace : list event;
  env : Env
}.
Arguments mkWorld {_}.

Definition M `{Host} (A : Type) : Type := World -> outcome A * World.

#[global] Instance M_ret `{Host} : MRet M := fun A a w => (Ok a, w).

#[global] Instance M_bind `{Host} : MBind M := fun A B k m w =>
  match m w with
  | (Ok a, w') => k a w'
  | (Throw e, w') => (Throw e, w')
  end.

Definition throw `{Host} {A} (e : exn) : M A := fun w => (Throw e, w).

(** [try { body } catch (e) { handler }]: what [body] did to the world
    before it threw stays done. *)
Definition try_catch `{Host} {A} (body : M A) (handler : exn -> M A) : M A :=
  fun w =>
    match body w with
    | (Ok a, w') => (Ok a, w')
    | (Throw e, w') => handler e w'
    end.

(** A call to a collaborator: run it on the outside, log the call and its
    answer. *)
Definition call `{Host} {A} (run : Env -> outcome A * Env)
    (log : outcome A -> event) : M A :=
  fun w =>
    let (r, env') := run (env w) in
    (r, mkWorld (SqliteDb_db w) (SqliteDb_indexSqlitePath w)
                (trace w ++ [log r]) env').

Definition getHistoryCommits `{Host} (git : GitAction) : M (list Commit.t) :=
  call (git_getHistoryCommits git) GetHistoryCommits.

Definition getChangeByHash `{Host} (git : GitAction) (hash : string) : M string :=
  call (git_getChangeByHash git hash) (GetChangeByHash hash).

Definition ftsIndex_retrieve `{Host} (args : FtsArgs.t Tag) : M (list Chunk.t) :=
  call (fts_retrieve args) (FtsRetrieve args).

Definition console_warn `{Host} (message : string) (e : exn) : M unit :=
  fun w =>
    (Ok tt, mkWorld (SqliteDb_db w) (SqliteDb_indexSqlitePath w)
                    (trace w ++ [ConsoleWarn message e]) (env w)).

(** ** [class SqliteDb] *)

Definition sql_tag_catalog : string :=
"CREATE TABLE IF NOT EXISTS tag_catalog (
            id INTEGER PRIMARY KEY AUTOINCREMENT,
            dir STRING NOT NULL,
            branch STRING NOT NULL,
            artifactId STRING NOT NULL,
            path STRING NOT NULL,
            cacheKey STRING NOT NULL,
            lastUpdated INTEGER NOT NULL
        )".

Definition sql_global_cache : string :=
"CREATE TABLE IF NOT EXISTS global_cache (
            id INTEGER PRIMARY KEY AUTOINCREMENT,
            cacheKey STRING NOT NULL,
            dir STRING NOT NULL,
            branch STRING NOT NULL,
            artifactId STRING NOT NULL
        )".

Definition getIndexSqlitePath `{Host} : M string :=
  folder ← call getIndexFolderPath GetIndexFolderPath;
  mret (path_join folder "autodev-index.sqlite").

Definition exec `{Host} (db : DatabaseConnection) (sql : string) : M unit :=
  call (db_exec db sql) (DbExec db sql).

Definition open `{Host} (filename : string) : M DatabaseConnection :=
  call (sqlite_open filename) (SqliteOpen filename).

Definition createTables `{Host} (db : DatabaseConnection) : M unit :=
  exec db sql_tag_catalog;;
  exec db sql_global_cache.

(** Reads and writes of the two static fields. *)
Definition read_db `{Host} : M (option DatabaseConnection) :=
  fun w => (Ok (SqliteDb_db w), w).

Definition write_db `{Host} (db : option DatabaseConnection) : M unit :=
  fun w => (Ok tt, mkWorld db (SqliteDb_indexSqlitePath w) (trace w) (env w)).

Definition read_indexSqlitePath `{Host} : M string :=
  fun w => (Ok (SqliteDb_indexSqlitePath w), w).

Definition write_indexSqlitePath `{Host} (p : string) : M unit :=
  fun w => (Ok tt, mkWorld (SqliteDb_db w) p (trace w) (env w)).

Definition existsSync `{Host} (p : string) : M bool :=
  fun w => (Ok (fs_existsSync p (env w)), w).

(** [SqliteDb.db && fs.existsSync(SqliteDb.indexSqlitePath)]: the file
    system is asked only when the field is not null. *)
Definition cached `{Host} : M bool :=
  db ← read_db;
  match db with
  | None => mret false
  | Some _ => p ← read_indexSqlitePath; existsSync p
  end.

(** [SqliteDb.get()]; its value is the field [SqliteDb.db]. *)
Definition get `{Host} : M (option DatabaseConnection) :=
  hit ← cached;
  if (hit : bool) then read_db
  else
    p ← getIndexSqlitePath;
    write_indexSqlitePath p;;
    filename ← read_indexSqlitePath;
    db ← open filename;
    write_db (Some db);;
    createTables db;;
    read_db.

(** ** [class Retrieval] *)

Fixpoint deduplicateArray_loop {T} (equal : T -> T -> bool)
    (array result : list T) : list T :=
  match array with
  | [] => result
  | item :: rest =>
      deduplicateArray_loop equal rest
        (if negb (existsb (fun existingItem => equal existingItem item) result)
         then result ++ [item]
         else result)
  end.

Definition deduplicateArray {T} (array : list T) (equal : T -> T -> bool) : list T :=
  deduplicateArray_loop equal array [].

Definition same_chunk (a b : Chunk.t) : bool :=
  String.eqb (Chunk.filepath a) (Chunk.filepath b)
  && (Chunk.startLine a =? Chunk.startLine b)
  && (Chunk.endLine a =? Chunk.endLine b).

Definition deduplicateChunks (chunks : list Chunk.t) : list Chunk.t :=
  deduplicateArray chunks same_chunk.

(** [commits[index]]: [undefined] out of range. *)
Definition commits_at (commits : list Commit.t) (index : Z) : option Commit.t :=
  if index <? 0 then None else commits !! Z.to_nat index.

(** The value of [indexes] before the cap (lines 168 to 171): map to the
    index or [-1], drop the [-1], sort by the difference of the scores. *)
Definition passing_indexes (results : list Js.number) (threshold : Js.number) : list Z :=
  Js.sort
    (fun a b => Js.sub (Js.at_number results b) (Js.at_number results a))
    (filter (fun index => index ≠ -1)
       (imap (fun index score =>
                if Js.gt score threshold then Z.of_nat index else -1)
             results)).

Definition commit_chunk (commit : Commit.t) (changes : string) : Chunk.t :=
  {| Chunk.language := "";
     Chunk.digest := Commit.hash commit;
     Chunk.filepath := Commit.hash commit;
     Chunk.content := changes;
     Chunk.startLine := 0;
     Chunk.endLine := 0;
     Chunk.index := 0 |}.

(** The [for (let index of indexes)] loop, [chunks] being the array built
    so far. *)
Fixpoint retrieveGit_loop `{Host} (git : GitAction) (commits : list Commit.t)
    (indexes : list Z) (chunks : list Chunk.t) : M (list Chunk.t) :=
  match indexes with
  | [] => mret chunks
  | index :: rest =>
      if index =? -1 then retrieveGit_loop git commits rest chunks
      else
        match commits_at commits index with
        | None => throw (TypeError "Cannot read properties of undefined (reading 'hash')")
        | Some commit =>
            changes ← getChangeByHash git (Commit.hash commit);
            if String.eqb changes ""
            then retrieveGit_loop git commits rest chunks
            else retrieveGit_loop git commits rest
                   (chunks ++ [commit_chunk commit changes])
        end
  end.

(** [retrieveGit(git, term, threshold = 0.6)]: a missing [threshold] is
    [None]. *)
Definition retrieveGit `{Host} (git : GitAction)
    (term : RetrievalQueryTerm.t Tag) (threshold : option Js.number)
    : M (list Chunk.t) :=
  let threshold := default Js.lit_0_6 threshold in
  commits ← getHistoryCommits git;
  let commitMessages := map Commit.message commits in
  let results := tfidf_search commitMessages (RetrievalQueryTerm.query term) in
  let indexes := passing_indexes results threshold in
  if (length indexes =? 0)%nat then mret []
  else
    let indexes := Js.slice0 indexes (RetrievalQueryTerm.n term) in
    retrieveGit_loop git commits indexes [].

(** The query string handed to the engine (line 218). *)
Definition fts_query (query : string) : string :=
  Js.join " OR " (map Js.quoted (Js.split " "%char (Js.trim query))).

Definition retrieveFts `{Host} (term : RetrievalQueryTerm.t Tag) : M (list Chunk.t) :=
  let ftsResults : list Chunk.t := [] in
  try_catch
    (ftsResults ←
       (if negb (String.eqb (Js.trim (RetrievalQueryTerm.query term)) "")
        then ftsIndex_retrieve
               {| FtsArgs.tags := RetrievalQueryTerm.tags term;
                  FtsArgs.text := fts_query (RetrievalQueryTerm.query term);
                  FtsArgs.n := RetrievalQueryTerm.n term;
                  FtsArgs.directory := RetrievalQueryTerm.filterDirectory term;
                  FtsArgs.filterPaths := None;
                  FtsArgs.bm25Threshold := RETRIEVAL_PARAMS_bm25Threshold;
                  FtsArgs.language := RetrievalQueryTerm.language term |}
        else mret ftsResults);
     mret ftsResults)
    (fun e =>
       console_warn "Error retrieving from FTS:" e;;
       mret []).

(** ** Vocabulary of the statements *)

(** No element of [l] is [equal] to a later one, the earlier element being
    the first argument. *)
Definition no_earlier_equal {T} (equal : T -> T -> bool) (l : list T) : Prop :=
  forall i j a b,
    (i < j)%nat -> l !! i = Some a -> l !! j = Some b -> equal a b = false.

(** [a] may stand before [b] in the ranking of the commits: its score is
    not lower, and on a tie its index is lower. *)
Definition ranked_before (results : list Js.number) (a b : Z) : Prop :=
  Js.ge (Js.at_number results a) (Js.at_number results b) = true
  /\ (Js.eq (Js.at_number results a) (Js.at_number results b) = true -> a < b).

Definition is_NaN (x : Js.number) : bool :=
  match x with Js.NaN => true | _ => false end.

(** [k] is an index of [results] whose score is above the threshold. *)
Definition passes (results : list Js.number) (threshold : Js.number) (k : Z) : Prop :=
  exists i s, k = Z.of_nat i /\ results !! i = Some s /\ Js.gt s threshold = true.

(** What one turn of the loop of [retrieveGit] learns: the commit and the
    answer of [getChangeByHash] for its hash. *)
Definition answer : Type := Commit.t * string.

Definition fetch_event `{Host} (a : answer) : event :=
  GetChangeByHash (Commit.hash a.1) (Ok a.2).

(** The chunks a turn adds to the result: none for an empty diff. *)
Definition chunks_of_answer (a : answer) : list Chunk.t :=
  if String.eqb a.2 "" then [] else [commit_chunk a.1 a.2].

Definition empty_diff (a : answer) : bool := String.eqb a.2 "".

(** The event [ev] is a call to the source control that threw [e]. *)
Definition git_raised `{Host} (ev : event) (e : exn) : Prop :=
  ev = GetHistoryCommits (Throw e)
  \/ exists hash, ev = GetChangeByHash hash (Throw e).

(** The arguments of the one call [retrieveFts] makes to the engine. *)
Definition retrieveFts_args `{Host} (term : RetrievalQueryTerm.t Tag) : FtsArgs.t Tag :=
  {| FtsArgs.tags := RetrievalQueryTerm.tags term;
     FtsArgs.text := fts_query (RetrievalQueryTerm.query term);
     FtsArgs.n := RetrievalQueryTerm.n term;
     FtsArgs.directory := RetrievalQueryTerm.filterDirectory term;
     FtsArgs.filterPaths := None;
     FtsArgs.bm25Threshold := RETRIEVAL_PARAMS_bm25Threshold;
     FtsArgs.language := RetrievalQueryTerm.language term |}.

(** The code unit [c] occurs in [s]. *)
Fixpoint occurs (c : ascii) (s : string) : bool :=
  match s with
  | EmptyString => false
  | String c' s' => Ascii.eqb c' c || occurs c s'
  end.

(** The query string as the specification words it: the tokens of the
    trimmed input are its maximal runs of code units that are not white
    space; each is wrapped in double quotes, and they are joined with
    [" OR "]. *)
Fixpoint whitespace_tokens_from (token : string) (s : string) : list string :=
  match s with
  | EmptyString => match token with EmptyString => [] | _ => [token] end
  | String c s' =>
      if Js.is_white_space c
      then match token with
           | EmptyString => whitespace_tokens_from EmptyString s'
           | _ => token :: whitespace_tokens_from EmptyString s'
           end
      else whitespace_tokens_from (token +:+ String c EmptyString) s'
  end.

Definition whitespace_tokens (s : string) : list string :=
  whitespace_tokens_from EmptyString s.

Definition spec_fts_query (query : string) : string :=
  Js.join " OR " (map Js.quoted (whitespace_tokens (Js.trim query))).

(** No code unit of [s] is white space. *)
Fixpoint no_white_space (s : string) : bool :=
  match s with
  | EmptyString => true
  | String c s' => negb (Js.is_white_space c) && no_white_space s'
  end.

(** A word: a non-empty string without white space. *)
Definition is_word (s : string) : Prop := s ≠ "" /\ no_white_space s = true.

(** The second half of [SqliteDb.get]: what it does when it does not
    return the cached handle. *)
Definition reopen `{Host} : M (option DatabaseConnection) :=
  p ← getIndexSqlitePath;
  write_indexSqlitePath p;;
  filename ← read_indexSqlitePath;
  db ← open filename;
  write_db (Some db);;
  createTables db;;
  read_db.

(** The calls of a [reopen] that went well: the index folder is asked
    for, the store is opened and the two tables are created. *)
Definition reopen_calls `{Host} (folder : string) (db : DatabaseConnection) : list event :=
  [GetIndexFolderPath (Ok folder);
   SqliteOpen (path_join folder "autodev-index.sqlite") (Ok db);
   DbExec db sql_tag_catalog (Ok tt);
   DbExec db sql_global_cache (Ok tt)].

(** ** A host to run the code on

    A small outside world for the examples: a file system that is a list
    of paths, a store that opens any path and numbers its handles, an
    engine that is up or down, and a scorer that gives a document the
    share of the words of the query it holds. *)
Module Demo.

Record env : Type := mk_env {
  files : list string;
  next_handle : nat;
  fts_down : bool
}.

Definition overlap_score (query doc : string) : Js.number :=
  let words := Js.split " " query in
  let held := List.filter (fun word => existsb (String.eqb word) (Js.split " " doc)) words in
  Js.Finite (Z.of_nat (length held) # Pos.of_nat (length words)).

Definition found : Chunk.t :=
  {| Chunk.language := "typescript";
     Chunk.digest := "9f2c";
     Chunk.filepath := "src/login.ts";
     Chunk.content := "export function login() {}";
     Chunk.startLine := 10;
     Chunk.endLine := 12;
     Chunk.index := 0 |}.

Definition host : Host :=
  {| Tag := string;
     DatabaseConnection := nat;
     Env := env;
     tfidf_search := fun docs query => map (overlap_score query) docs;
     RETRIEVAL_PARAMS_bm25Threshold := Js.Finite (-5 # 2);
     fts_retrieve := fun _ e =>
       if fts_down e then (Throw (Error "no such table: fts"), e)
       else (Ok [found], e);
     getIndexFolderPath := fun e => (Ok "/home/dev/.autodev/index", e);
     path_join := fun a b => a +:+ "/" +:+ b;
     fs_existsSync := fun p e => existsb (String.eqb p) (files e);
     sqlite_open := fun p e =>
       (Ok (next_handle e),
        mk_env (p :: files e) (S (next_handle e)) (fts_down e));
     db_exec := fun _ _ e => (Ok tt, e) |}.

Definition commits : list Commit.t :=
  [Commit.mk "a" "fix login bug";
   Commit.mk "b" "update docs";
   Commit.mk "c" "fix login redirect";
   Commit.mk "d" "login bug again"].

(** A repository whose commit [d] has nothing to show. *)
Definition git : @GitAction host :=
  @mkGitAction host
    (fun e => (Ok commits, e))
    (fun hash e => (Ok (if String.eqb hash "d" then "" else "diff of " +:+ hash), e)).

(** A folder that is not a repository. *)
Definition git_no_history : @GitAction host :=
  @mkGitAction host
    (fun e => (Throw (Error "not a git repository"), e))
    (fun hash e => (Ok ("diff of " +:+ hash), e)).

(** A repository that cannot show the commit [d]. *)
Definition git_no_diff : @GitAction host :=
  @mkGitAction host
    (fun e => (Ok commits, e))
    (fun hash e =>
       if String.eqb hash "d" then (Throw (Error "bad object d"), e)
       else (Ok ("diff of " +:+ hash), e)).

Definition term (query : string) : RetrievalQueryTerm.t (@Tag host) :=
  RetrievalQueryTerm.mk query ["main"] 2 None None.

Definition outside : env := mk_env [] 1 false.

Definition w0 : @World host :=
  @mkWorld host None "/home/dev/.autodev/index/autodev-index.sqlite" [] outside.

(** The same, the engine being down. *)
Definition w_down : @World host :=
  @mkWorld host None "/home/dev/.autodev/index/autodev-index.sqlite" [] (mk_env [] 1 true).

(** The scores of the four commits for the query ["login bug"]: 1, 0,
    1/2 and 1. *)
Definition scores : list Js.number :=
  map (overlap_score "login bug") (map Commit.message commits).

(** The chunk of the commit [a]. *)
Definition chunk_a : Chunk.t := commit_chunk (Commit.mk "a" "fix login bug") "diff of a".

(** An order that is no equivalence, for [deduplicateArray]: the kept item
    is below the new one. *)
Definition below (existingItem item : nat) : bool := (existingItem <? item)%nat.

End Demo.

(** ** Vocabulary of the further properties *)

(** The key on which [deduplicateChunks] compares. *)
Definition chunk_key (chunk : Chunk.t) : string * Z * Z :=
  (Chunk.filepath chunk, Chunk.startLine chunk, Chunk.endLine chunk).

(** The event is a call to [getChangeByHash]. *)
Definition is_diff_call `{Host} (ev : event) : Prop :=
  exists hash r, ev = GetChangeByHash hash r.

(** What reading [hash] off a commit that is not there throws. *)
Definition undefined_commit : exn :=
  TypeError "Cannot read properties of undefined (reading 'hash')".

(** Every code unit of [s] is white space. *)
Fixpoint blank (s : string) : bool :=
  match s with
  | EmptyString => true
  | String c s' => Js.is_white_space c && blank s'
  end.

(** ** More of the JavaScript strings *)

Module JsStr.

Fixpoint take (n : nat) (s : string) : string :=
  match n, s with
  | S n', String c s' => String c (take n' s')
  | _, _ => EmptyString
  end.

Fixpoint drop (n : nat) (s : string) : string :=
  match n, s with
  | S n', String _ s' => drop n' s'
  | _, _ => s
  end.

(** An index argument of [slice], brought into [0 .. len]: a negative one
    counts from the end. *)
Definition clamp (len : nat) (k : Z) : nat :=
  if k <? 0 then Z.to_nat (Z.max (Z.of_nat len + k) 0)
  else Nat.min (Z.to_nat k) len.

(** [s.slice(start, end)]; [s.slice(start)] is [slice s start None]. *)
Definition slice (s : string) (start : Z) (end_ : option Z) : string :=
  let len := String.length s in
  let from := clamp len start in
  let to := match end_ with Some e => clamp len e | None => len end in
  take (to - from) (drop from s).

Fixpoint indexOf_from (c : ascii) (s : string) (k : Z) : Z :=
  match s with
  | EmptyString => -1
  | String c' s' => if Ascii.eqb c' c then k else indexOf_from c s' (k + 1)
  end.

(** [s.indexOf(c)] for a search string of one code unit: [-1] when it does
    not occur. *)
Definition indexOf (s : string) (c : ascii) : Z := indexOf_from c s 0.

(** [s.startsWith(p)]. *)
Definition startsWith (s p : string) : bool := String.prefix p s.

(** The line feed. *)
Definition LF : ascii := "010"%char.

End JsStr.

(** ** [ChatDeepseek.completionWithRetry]: reading the event stream

    The reader loop of [makeCompletionRequest] (chat-models/deepseek.ts).
    [reads] are the values [reader.read()] gives before it is done and
    [decode] is [decoder.decode].  [onmessage] is the optional callback: it
    has a state of its own, of type [St], and may throw, as the callback of
    [_generate] does when [JSON.parse] refuses the data; an exception
    leaves both loops.  [events] are the [data] of the events the callback
    was called with, the one it threw on included.  A loop of the source
    that runs while [data] holds a line feed is a recursion on [fuel];
    [None] is a run that used all of it. *)
Module ChatDeepseek.

Definition callback (St : Type) : Type := string -> St -> outcome unit * St.

(** [onmessage?.(event)]: nothing happens without a callback. *)
Definition send {St} (onmessage : option (callback St)) (data : string)
    (events : list string) (s : St) : outcome unit * (list string * St) :=
  match onmessage with
  | None => (Ok tt, (events, s))
  | Some f => let (r, s') := f data s in (r, (events ++ [data], s'))
  end.

(** The inner loop ([while (continueProcessing)]); its value is what is
    left in [data]. *)
Fixpoint process {St} (fuel : nat) (onmessage : option (callback St))
    (data : string) (events : list string) (s : St)
    : option (outcome string * (list string * St)) :=
  match fuel with
  | O => None
  | S fuel' =>
      let newlineIndex := JsStr.indexOf data JsStr.LF in
      if newlineIndex =? -1 then Some (Ok data, (events, s))
      else
        let line := JsStr.slice data 0 (Some newlineIndex) in
        let data := JsStr.slice data (newlineIndex + 1) None in
        if JsStr.startsWith line "data:"
        then
          match send onmessage
                  (Js.trim (JsStr.slice line (Z.of_nat (String.length "data:")) None))
                  events s with
          | (Ok _, (events, s)) => process fuel' onmessage data events s
          | (Throw e, after) => Some (Throw e, after)
          end
        else process fuel' onmessage data events s
  end.

(** The outer loop ([while (continueReading)]): when the reader is done,
    what is left in [data] is dropped. *)
Fixpoint read {V St} (decode : V -> string) (onmessage : option (callback St))
    (reads : list V) (data : string) (events : list string) (s : St)
    : option (outcome unit * (list string * St)) :=
  match reads with
  | [] => Some (Ok tt, (events, s))
  | value :: rest =>
      let data := data +:+ decode value in
      match process (S (String.length data)) onmessage data events s with
      | None => None
      | Some (Ok data, (events, s)) => read decode onmessage rest data events s
      | Some (Throw e, after) => Some (Throw e, after)
      end
  end.

(** The loops from [let data = ""] on, no event sent yet. *)
Definition stream_events {V St} (decode : V -> string)
    (onmessage : option (callback St)) (reads : list V) (s : St)
    : option (outcome unit * (list string * St)) :=
  read decode onmessage reads "" [] s.

End ChatDeepseek.

(** Handing the payloads to the callback one after the other, up to the
    first on which it throws. *)
Fixpoint deliver {St} (onmessage : option (ChatDeepseek.callback St))
    (payloads : list string) (events : list string) (s : St)
    : outcome unit * (list string * St) :=
  match payloads with
  | [] => (Ok tt, (events, s))
  | payload :: rest =>
      match ChatDeepseek.send onmessage payload events s with
      | (Ok _, (events, s)) => deliver onmessage rest events s
      | (Throw e, after) => (Throw e, after)
      end
  end.

(** The event a complete line gives: none, unless the line starts with
    [data:]. *)
Definition line_event (line : string) : list string :=
  if JsStr.startsWith line "data:"
  then [Js.trim (JsStr.drop 5 line)]
  else [].

(** The text of a stream. *)
Definition stream_text {V} (decode : V -> string) (reads : list V) : string :=
  foldr (fun value text => decode value +:+ text) "" reads.

(** The complete lines of a text: what stands before each line feed. *)
Definition complete_lines (text : string) : list string :=
  removelast (Js.split JsStr.LF text).

(** ** More of the small host *)

Module Demo2.

(** The term of [Demo.term] with another cap. *)
Definition term_n (query : string) (n : Z) : RetrievalQueryTerm.t (@Tag Demo.host) :=
  RetrievalQueryTerm.mk query ["main"] n None None.

(** The host of [Demo.host] with a store that may refuse to open, or
    refuse the second [CREATE TABLE]. *)
Definition store_host (open_fails tables_fail : bool) : Host :=
  {| Tag := string;
     DatabaseConnection := nat;
     Env := Demo.env;
     tfidf_search := fun docs query => map (Demo.overlap_score query) docs;
     RETRIEVAL_PARAMS_bm25Threshold := Js.Finite (-5 # 2);
     fts_retrieve := fun _ e => (Ok [Demo.found], e);
     getIndexFolderPath := fun e => (Ok "/home/dev/.autodev/index", e);
     path_join := fun a b => a +:+ "/" +:+ b;
     fs_existsSync := fun p e => existsb (String.eqb p) (Demo.files e);
     sqlite_open := fun p e =>
       if open_fails then (Throw (Error "unable to open database file"), e)
       else (Ok (Demo.next_handle e),
             Demo.mk_env (p :: Demo.files e) (S (Demo.next_handle e))
               (Demo.fts_down e));
     db_exec := fun _ sql e =>
       if tables_fail && String.eqb sql sql_global_cache
       then (Throw (Error "database is locked"), e)
       else (Ok tt, e) |}.

(** Nothing opened yet, on a store that refuses the second table. *)
Definition w_locked : @World (store_host false true) :=
  @mkWorld (store_host false true) None
    "/home/dev/.autodev/index/autodev-index.sqlite" [] Demo.outside.

(** The handle 7 is cached for a file of another folder, which is gone,
    and the store does not open. *)
Definition w_stale : @World (store_host true false) :=
  @mkWorld (store_host true false) (Some 7%nat)
    "/home/old/.autodev/index/autodev-index.sqlite" [] Demo.outside.

(** A stream cut in the middle of a line, whose last line has no line
    feed. *)
Definition reads : list string :=
  ["data: {a}
da"; "ta:  b  
: ping
"].

Definition tail : string := "data: {c}".

(** A callback in the manner of [_generate]: it refuses a payload that
    does not open with a brace, and counts the ones it took. *)
Definition parse : ChatDeepseek.callback nat := fun data count =>
  if JsStr.startsWith data "{" then (Ok tt, S count)
  else (Throw (Error "Unexpected token in JSON at position 0"), count).

(** A callback that takes everything. *)
Definition collect : ChatDeepseek.callback nat := fun _ count => (Ok tt, S count).

End Demo2.

(** ** [deduplicateArray] and [deduplicateChunks] *)

Lemma existsb_false_iff {T} (p : T -> bool) (l : list T) :
  existsb p l = false <-> forall a, a ∈ l -> p a = false.
Proof.
  induction l as [|x l IH]; simpl.
  - split; [intros _ a Ha; inversion Ha | done].
  - rewrite orb_false_iff, IH. split.
    + intros [Hx Hl] a Ha. apply elem_of_cons in Ha as [->|Ha]; auto.
    + intros Hall. split; [apply Hall; left | intros a Ha; apply Hall; by right].
Qed.

Lemma no_earlier_equal_snoc {T} (equal : T -> T -> bool) (l : list T) (x : T) :
  no_earlier_equal equal l ->
  existsb (fun existingItem => equal existingItem x) l = false ->
  no_earlier_equal equal (l ++ [x]).
Proof.
  intros Hl Hx i j a b Hij Ha Hb.
  destruct (decide (j < length l)%nat) as [Hj|Hj].
  - rewrite lookup_app_l in Ha by lia. rewrite lookup_app_l in Hb by lia. eauto.
  - assert (j = length l) as ->.
    { apply lookup_lt_Some in Hb. rewrite length_app in Hb. simpl in Hb. lia. }
    rewrite lookup_app_l in Ha by lia.
    rewrite lookup_app_r, Nat.sub_diag in Hb by lia. simpl in Hb.
    injection Hb as <-.
    rewrite existsb_false_iff in Hx. apply Hx.
    by eapply list_elem_of_lookup_2.
Qed.

Lemma no_earlier_equal_app_inv {T} (equal : T -> T -> bool) (l : list T) (x : T) (k : list T) :
  no_earlier_equal equal (l ++ x :: k) ->
  existsb (fun existingItem => equal existingItem x) l = false.
Proof.
  intros H. apply existsb_false_iff. intros a Ha.
  apply list_elem_of_lookup_1 in Ha as [i Hi].
  apply (H i (length l) a x).
  - by eapply lookup_lt_Some.
  - by rewrite lookup_app_l by (by eapply lookup_lt_Some).
  - by rewrite lookup_app_r, Nat.sub_diag by lia.
Qed.

Lemma deduplicateArray_loop_app {T} (equal : T -> T -> bool) (xs ys result : list T) :
  deduplicateArray_loop equal (xs ++ ys) result
  = deduplicateArray_loop equal ys (deduplicateArray_loop equal xs result).
Proof. revert result. induction xs as [|x xs IH]; intros result; simpl; auto. Qed.

(** The loop only appends to [result], and what it appends is a
    subsequence of the array. *)
Lemma deduplicateArray_loop_appends {T} (equal : T -> T -> bool) (array result : list T) :
  exists kept,
    deduplicateArray_loop equal array result = result ++ kept
    /\ kept `sublist_of` array.
Proof.
  revert result. induction array as [|item rest IH]; intros result; simpl.
  - exists []. by rewrite app_nil_r.
  - destruct (existsb _ result); simpl.
    + destruct (IH result) as (kept & -> & Hsub).
      exists kept. split; [done | by apply sublist_cons].
    + destruct (IH (result ++ [item])) as (kept & -> & Hsub).
      exists (item :: kept). split; [by rewrite <- app_assoc | by apply sublist_skip].
Qed.

Lemma deduplicateArray_loop_no_earlier_equal {T} (equal : T -> T -> bool)
    (array result : list T) :
  no_earlier_equal equal result ->
  no_earlier_equal equal (deduplicateArray_loop equal array result).
Proof.
  revert result. induction array as [|item rest IH]; intros result Hres; simpl; [done|].
  apply IH. destruct (existsb _ result) eqn:E; simpl; [done|].
  by apply no_earlier_equal_snoc.
Qed.

(** On an array that continues [result] without an element equal to an
    earlier one, the loop keeps everything. *)
Lemma deduplicateArray_loop_keeps_all {T} (equal : T -> T -> bool) (array result : list T) :
  no_earlier_equal equal (result ++ array) ->
  deduplicateArray_loop equal array result = result ++ array.
Proof.
  revert result. induction array as [|item rest IH]; intros result H; simpl.
  - by rewrite app_nil_r.
  - rewrite (no_earlier_equal_app_inv _ _ _ _ H). simpl.
    rewrite IH; rewrite <- app_assoc; done.
Qed.

Lemma no_earlier_equal_nil {T} (equal : T -> T -> bool) : no_earlier_equal equal [].
Proof. intros i j a b _ Ha. by rewrite lookup_nil in Ha. Qed.

(** C10. For every array and every predicate [equal] (no law is asked of
    it), [deduplicateArray] returns a subsequence of the array, in the
    order of the array; an item, reached after the items [seen], is kept
    exactly when no item kept out of [seen] is [equal] to it (kept item
    first), and the items kept out of [seen] stay in front; so no item of
    the result is [equal] to a later item of the result. *)
Theorem deduplicateArray_first_seen {T} (array : list T) (equal : T -> T -> bool) :
  deduplicateArray array equal `sublist_of` array
  /\ (forall seen item rest,
        array = seen ++ item :: rest ->
        exists later,
          deduplicateArray array equal
          = deduplicateArray seen equal
            ++ (if existsb (fun existingItem => equal existingItem item)
                     (deduplicateArray seen equal)
                then [] else [item])
            ++ later)
  /\ (forall i j a b,
        (i < j)%nat ->
        deduplicateArray array equal !! i = Some a ->
        deduplicateArray array equal !! j = Some b ->
        equal a b = false).
Proof.
  unfold deduplicateArray. split; [|split].
  - destruct (deduplicateArray_loop_appends equal array []) as (kept & -> & Hsub).
    done.
  - intros seen item rest ->.
    rewrite deduplicateArray_loop_app. simpl.
    set (kept := deduplicateArray_loop equal seen []).
    destruct (existsb _ kept); simpl.
    + destruct (deduplicateArray_loop_appends equal rest kept) as (later & -> & _).
      by exists later.
    + destruct (deduplicateArray_loop_appends equal rest (kept ++ [item]))
        as (later & -> & _).
      exists later. by rewrite <- app_assoc.
  - apply deduplicateArray_loop_no_earlier_equal, no_earlier_equal_nil.
Qed.

Lemma same_chunk_true (a b : Chunk.t) :
  same_chunk a b = true
  <-> Chunk.filepath a = Chunk.filepath b
      /\ Chunk.startLine a = Chunk.startLine b
      /\ Chunk.endLine a = Chunk.endLine b.
Proof.
  unfold same_chunk. rewrite !andb_true_iff, String.eqb_eq, !Z.eqb_eq. tauto.
Qed.

(** C8. Deduplicating chunks twice is deduplicating them once; two chunks
    are duplicates exactly when [filepath], [startLine] and [endLine] are
    equal, whatever [digest] and [content] are. *)
Theorem deduplicateChunks_idempotent (xs : list Chunk.t) :
  deduplicateChunks (deduplicateChunks xs) = deduplicateChunks xs
  /\ (forall a b,
        same_chunk a b = true
        <-> Chunk.filepath a = Chunk.filepath b
            /\ Chunk.startLine a = Chunk.startLine b
            /\ Chunk.endLine a = Chunk.endLine b).
Proof.
  split; [|apply same_chunk_true].
  unfold deduplicateChunks, deduplicateArray at 1.
  apply (deduplicateArray_loop_keeps_all same_chunk (deduplicateArray xs same_chunk) []).
  simpl. apply deduplicateArray_loop_no_earlier_equal, no_earlier_equal_nil.
Qed.

(** ** Numbers and [sort] *)

Lemma gt_not_NaN x y : Js.gt x y = true -> is_NaN x = false.
Proof. by destruct x. Qed.

Lemma gt_eq_false x y : Js.eq x y = true -> Js.gt x y = false.
Proof.
  destruct x as [| |p|], y as [| |q|]; simpl; try done.
  rewrite Qeq_bool_iff. intros Hpq.
  apply negb_false_iff, Qle_bool_iff. lra.
Qed.

Lemma ge_trans x y z : Js.ge x y = true -> Js.ge y z = true -> Js.ge x z = true.
Proof.
  destruct x as [| |p|], y as [| |q|], z as [| |r|]; simpl; try done.
  rewrite !Qle_bool_iff. lra.
Qed.

(** The sign of [y - x], as [sort] reads it, against [>], [>=], [===]. *)
Lemma sign_sub_Gt x y :
  Js.SortCompare (fun a b => Js.sub b a) x y = Gt ->
  Js.ge y x = true /\ Js.eq y x = false.
Proof.
  unfold Js.SortCompare.
  destruct x as [| |p|], y as [| |q|]; simpl; try done.
  rewrite <- Qgt_alt. intros H. split.
  - apply Qle_bool_iff. lra.
  - destruct (Qeq_bool q p) eqn:E; [|done].
    apply Qeq_bool_iff in E. lra.
Qed.

Lemma sign_sub_not_Gt x y :
  is_NaN x = false -> is_NaN y = false ->
  Js.SortCompare (fun a b => Js.sub b a) x y <> Gt ->
  Js.ge x y = true.
Proof.
  unfold Js.SortCompare.
  destruct x as [| |p|], y as [| |q|]; simpl; try done.
  intros _ _ H. apply Qle_bool_iff.
  destruct (Qlt_le_dec (q - p) 0) as [Hlt|Hle]; [lra|].
  destruct (Qeq_dec (q - p) 0) as [Heq|Hne]; [lra|].
  exfalso. apply H. apply Qgt_alt. lra.
Qed.

Lemma sort_insert_elem_of {A} (comparefn : A -> A -> Js.number) (x y : A) (l : list A) :
  y ∈ Js.sort_insert comparefn x l <-> y = x \/ y ∈ l.
Proof.
  induction l as [|z l IH]; simpl.
  - rewrite list_elem_of_singleton. split; [auto | intros [?|H]; [done | inversion H]].
  - destruct (Js.SortCompare comparefn x z);
      rewrite ?elem_of_cons, ?IH, ?elem_of_cons; tauto.
Qed.

Lemma sort_elem_of {A} (comparefn : A -> A -> Js.number) (y : A) (l : list A) :
  y ∈ Js.sort comparefn l <-> y ∈ l.
Proof.
  induction l as [|x l IH]; simpl; [done|].
  by rewrite sort_insert_elem_of, IH, elem_of_cons.
Qed.

Lemma StronglySorted_lookup {A} (R : A -> A -> Prop) (l : list A) i j a b :
  StronglySorted R l -> (i < j)%nat -> l !! i = Some a -> l !! j = Some b -> R a b.
Proof.
  intros Hl. revert i j. induction Hl as [|x l Hl IH Hx]; intros i j Hij Ha Hb.
  - by rewrite lookup_nil in Ha.
  - destruct j as [|j]; [lia|]. simpl in Hb. destruct i as [|i]; simpl in Ha.
    + injection Ha as <-. rewrite Forall_forall in Hx. apply Hx.
      by eapply list_elem_of_lookup_2.
    + apply (IH i j); [lia | done | done].
Qed.


(** *** The indices that pass the threshold *)

(** The array after [map] and [filter], the indices counted from [off]. *)
Lemma candidates_from (threshold : Js.number) (results : list Js.number) (off : nat) :
  let c := filter (fun index : Z => index ≠ -1)
             (imap (fun index score =>
                      if Js.gt score threshold then Z.of_nat (off + index) else -1)
                   results) in
  (forall z, z ∈ c <->
     exists i s, z = Z.of_nat (off + i) /\ results !! i = Some s
                 /\ Js.gt s threshold = true)
  /\ StronglySorted Z.lt c
  /\ Forall (fun z => Z.of_nat off <= z) c.
Proof.
  revert off. induction results as [|s results IH]; intros off; simpl.
  - split; [|split]; [|constructor|constructor].
    intros z. split; [intros H; inversion H|].
    intros (i & s & _ & H & _). by rewrite lookup_nil in H.
  - rewrite (imap_ext _ (fun index score =>
               if Js.gt score threshold then Z.of_nat (S off + index) else -1))
      by (intros i x _; simpl; by rewrite Nat.add_succ_r).
    destruct (IH (S off)) as (Hmem & Hsorted & Hlow). clear IH.
    set (tail := filter _ (imap _ results)) in *.
    assert (Hcase :
      filter (fun index : Z => index ≠ -1)
        ((if Js.gt s threshold then Z.of_nat (off + 0) else -1)
         :: imap (fun index score =>
               if Js.gt score threshold then Z.of_nat (S off + index) else -1) results)
      = if Js.gt s threshold then Z.of_nat off :: tail else tail).
    { destruct (Js.gt s threshold).
      - rewrite filter_cons_True by lia. by rewrite Nat.add_0_r.
      - by rewrite filter_cons_False by (intros H; by apply H). }
    rewrite Hcase. clear Hcase.
    assert (Hlow' : Forall (fun z => Z.of_nat off <= z) tail).
    { eapply Forall_impl; [exact Hlow|]. simpl. intros; lia. }
    split; [|split].
    + intros z. destruct (Js.gt s threshold) eqn:Hs.
      * rewrite elem_of_cons, Hmem. split.
        -- intros [->|(i & s' & -> & Hi & Hgt)].
           ++ exists 0%nat, s. by rewrite Nat.add_0_r.
           ++ exists (S i), s'. split; [f_equal; lia | done].
        -- intros ([|i] & s' & -> & Hi & Hgt).
           ++ left. by rewrite Nat.add_0_r.
           ++ right. exists i, s'. split; [f_equal; lia | done].
      * rewrite Hmem. split.
        -- intros (i & s' & -> & Hi & Hgt).
           exists (S i), s'. split; [f_equal; lia | done].
        -- intros ([|i] & s' & -> & Hi & Hgt).
           ++ simpl in Hi. injection Hi as <-. congruence.
           ++ exists i, s'. split; [f_equal; lia | done].
    + destruct (Js.gt s threshold); [|done].
      constructor; [done|].
      eapply Forall_impl; [exact Hlow|]. simpl. intros; lia.
    + destruct (Js.gt s threshold); [|done].
      constructor; [lia | done].
Qed.

Lemma candidates_spec (threshold : Js.number) (results : list Js.number) :
  let c := filter (fun index : Z => index ≠ -1)
             (imap (fun index score =>
                      if Js.gt score threshold then Z.of_nat index else -1)
                   results) in
  (forall z, z ∈ c <-> passes results threshold z) /\ StronglySorted Z.lt c.
Proof.
  destruct (candidates_from threshold results 0) as (Hmem & Hsorted & _).
  simpl in *. split; [|done].
  intros z. rewrite Hmem. unfold passes. done.
Qed.

Lemma passes_score results threshold k :
  passes results threshold k ->
  Js.gt (Js.at_number results k) threshold = true.
Proof.
  intros (i & s & -> & Hi & Hgt). unfold Js.at_number.
  replace (Z.of_nat i <? 0) with false by (symmetry; apply Z.ltb_ge; lia).
  by rewrite Nat2Z.id, Hi.
Qed.

(** Inserting, in front of a ranked list of passing indices, a passing
    index lower than all of them: the list stays ranked. *)
Lemma sort_insert_ranked results (x : Z) (l : list Z) :
  is_NaN (Js.at_number results x) = false ->
  Forall (fun y => is_NaN (Js.at_number results y) = false /\ x < y) l ->
  StronglySorted (ranked_before results) l ->
  StronglySorted (ranked_before results)
    (Js.sort_insert
       (fun a b => Js.sub (Js.at_number results b) (Js.at_number results a)) x l).
Proof.
  intros Hx Hl Hsorted. induction Hsorted as [|y l Hsorted IH Hy]; simpl.
  - repeat constructor.
  - apply Forall_cons in Hl as [[Hy_nan Hxy] Hl].
    pose proof (sign_sub_Gt (Js.at_number results x) (Js.at_number results y)) as HGt.
    pose proof (sign_sub_not_Gt (Js.at_number results x) (Js.at_number results y)
                  Hx Hy_nan) as HnGt.
    unfold Js.SortCompare in *.
    assert (Hfront :
      Js.ge (Js.at_number results x) (Js.at_number results y) = true ->
      StronglySorted (ranked_before results) (x :: y :: l)).
    { intros Hge. constructor; [by constructor|].
      constructor; [by split|].
      rewrite Forall_forall in Hy, Hl. apply Forall_forall. intros z Hz.
      split; [|intros _; by apply Hl].
      eapply ge_trans; [exact Hge | by apply Hy]. }
    destruct (match Js.sub (Js.at_number results y) (Js.at_number results x) with
              | Js.NaN => Eq | Js.NegInfinity => Lt
              | Js.Finite v => (v ?= 0)%Q | Js.PosInfinity => Gt end) eqn:E.
    + apply Hfront, HnGt. done.
    + apply Hfront, HnGt. done.
    + destruct (HGt eq_refl) as [Hge Hne].
      constructor; [by apply IH|].
      apply Forall_forall. intros z Hz.
      apply sort_insert_elem_of in Hz as [->|Hz].
      * split; [done | congruence].
      * rewrite Forall_forall in Hy. by apply Hy.
Qed.

Lemma sort_ranked results (l : list Z) :
  Forall (fun y => is_NaN (Js.at_number results y) = false) l ->
  StronglySorted Z.lt l ->
  StronglySorted (ranked_before results)
    (Js.sort
       (fun a b => Js.sub (Js.at_number results b) (Js.at_number results a)) l).
Proof.
  intros Hnan Hsorted. induction Hsorted as [|x l Hsorted IH Hx]; simpl.
  - constructor.
  - apply Forall_cons in Hnan as [Hx_nan Hnan].
    apply sort_insert_ranked; [done | | by apply IH].
    apply Forall_forall. intros y Hy. apply sort_elem_of in Hy.
    rewrite Forall_forall in Hnan, Hx. split; [by apply Hnan | by apply Hx].
Qed.

Lemma passing_indexes_elem_of results threshold k :
  k ∈ passing_indexes results threshold <-> passes results threshold k.
Proof.
  unfold passing_indexes. rewrite sort_elem_of.
  apply (candidates_spec threshold results).
Qed.

Lemma passing_indexes_ranked results threshold :
  StronglySorted (ranked_before results) (passing_indexes results threshold).
Proof.
  unfold passing_indexes.
  destruct (candidates_spec threshold results) as [Hmem Hsorted].
  apply sort_ranked; [|done].
  apply Forall_forall. intros y Hy. apply Hmem in Hy.
  eapply gt_not_NaN, passes_score, Hy.
Qed.

Lemma ge_antisym x y : Js.ge x y = true -> Js.ge y x = true -> Js.eq x y = true.
Proof.
  destruct x as [| |p|], y as [| |q|]; simpl; try done.
  rewrite !Qle_bool_iff, Qeq_bool_iff. lra.
Qed.

Lemma ranked_before_asym results a b :
  ranked_before results a b -> ranked_before results b a -> False.
Proof.
  intros [Hab Hlt] [Hba Hgt].
  pose proof (ge_antisym _ _ Hab Hba) as Heq.
  pose proof (ge_antisym _ _ Hba Hab) as Heq'.
  specialize (Hlt Heq). specialize (Hgt Heq'). lia.
Qed.

(** The ranking leaves no freedom: an arrangement of the kept indices that
    is in descending order of score, ties in ascending order of index, is
    the array [indexes].  Any stable sort gives the result of [Js.sort]. *)
Lemma passing_indexes_unique results threshold (l : list Z) :
  l ≡ₚ passing_indexes results threshold ->
  StronglySorted (ranked_before results) l ->
  l = passing_indexes results threshold.
Proof.
  intros Hperm Hsorted.
  apply (StronglySorted_unique_strong (ranked_before results));
    [|done|apply passing_indexes_ranked|done].
  intros a b _ _ Hab Hba. destruct (ranked_before_asym _ _ _ Hab Hba).
Qed.

(** ** Running computations *)

Lemma bind_run `{Host} {A B} (m : M A) (k : A -> M B) (w : World) :
  (m ≫= k) w = match m w with
               | (Ok a, w') => k a w'
               | (Throw e, w') => (Throw e, w')
               end.
Proof. reflexivity. Qed.

Lemma call_run `{Host} {A} (run : Env -> outcome A * Env) (log : outcome A -> event)
    (w : World) :
  call run log w
  = ((run (env w)).1,
     mkWorld (SqliteDb_db w) (SqliteDb_indexSqlitePath w)
             (trace w ++ [log (run (env w)).1]) (run (env w)).2).
Proof. unfold call. by destruct (run (env w)). Qed.

(** ** The loop of [retrieveGit] *)

(** Closes a goal whose hypothesis [Hr] says that an answered call threw. *)
Ltac answered_call_raised Hr :=
  let hash := fresh "hash" in
  destruct Hr as [Hr|[hash Hr]]; discriminate Hr.

(** Closes a goal on the members of an empty list of calls. *)
Ltac no_call := let Hev := fresh "Hev" in intros ? ? Hev; inversion Hev.

(** A loop that ends normally made one call per index, in order, each
    answered with a diff, and added the chunks of the answers. *)
Lemma retrieveGit_loop_ok `{Host} (git : GitAction) (commits : list Commit.t)
    (indexes : list Z) (chunks out : list Chunk.t) (w w' : World) :
  Forall (fun index => index ≠ -1) indexes ->
  retrieveGit_loop git commits indexes chunks w = (Ok out, w') ->
  exists answers : list answer,
    trace w' = trace w ++ map fetch_event answers
    /\ Forall2 (fun index a => commits_at commits index = Some a.1) indexes answers
    /\ out = chunks ++ flat_map chunks_of_answer answers.
Proof.
  intros Hne. revert chunks w.
  induction Hne as [|index rest Hindex Hne IH]; intros chunks w Hrun; simpl in Hrun.
  - injection Hrun as <- <-. exists []. simpl. by rewrite !app_nil_r.
  - apply Z.eqb_neq in Hindex. rewrite Hindex in Hrun.
    destruct (commits_at commits index) as [commit|] eqn:Hcommit; [|done].
    rewrite bind_run in Hrun. unfold getChangeByHash in Hrun.
    rewrite call_run in Hrun.
    destruct (git_getChangeByHash git (Commit.hash commit) (env w))
      as [[changes|e] env'] eqn:Hdiff; simpl in Hrun; [|done].
    destruct (String.eqb changes "") eqn:Hempty.
    + apply IH in Hrun as (answers & Htrace & Hanswers & ->). simpl in Htrace.
      exists ((commit, changes) :: answers). split; [|split].
      * rewrite Htrace, <- app_assoc. done.
      * by constructor.
      * change (flat_map chunks_of_answer ((commit, changes) :: answers))
          with ((if String.eqb changes "" then [] else [commit_chunk commit changes])
                ++ flat_map chunks_of_answer answers).
        by rewrite Hempty.
    + apply IH in Hrun as (answers & Htrace & Hanswers & ->). simpl in Htrace.
      exists ((commit, changes) :: answers). split; [|split].
      * rewrite Htrace, <- app_assoc. done.
      * by constructor.
      * change (flat_map chunks_of_answer ((commit, changes) :: answers))
          with ((if String.eqb changes "" then [] else [commit_chunk commit changes])
                ++ flat_map chunks_of_answer answers).
        rewrite Hempty. by rewrite <- app_assoc.
Qed.

(** Whatever the loop does, it only adds calls to the trace, and when one
    of them threw, the loop throws the same exception. *)
Lemma retrieveGit_loop_raised `{Host} (git : GitAction) (commits : list Commit.t)
    (indexes : list Z) (chunks : list Chunk.t) (r : outcome (list Chunk.t))
    (w w' : World) :
  retrieveGit_loop git commits indexes chunks w = (r, w') ->
  exists calls,
    trace w' = trace w ++ calls
    /\ forall ev e, ev ∈ calls -> git_raised ev e -> r = Throw e.
Proof.
  revert chunks w. induction indexes as [|index rest IH]; intros chunks w Hrun;
    simpl in Hrun.
  - injection Hrun as <- <-. exists []. split; [by rewrite app_nil_r | no_call].
  - destruct (index =? -1); [by apply IH in Hrun|].
    destruct (commits_at commits index) as [commit|].
    2:{ injection Hrun as <- <-. exists [].
        split; [by rewrite app_nil_r | no_call]. }
    rewrite bind_run in Hrun. unfold getChangeByHash in Hrun.
    rewrite call_run in Hrun.
    destruct (git_getChangeByHash git (Commit.hash commit) (env w))
      as [[changes|e0] env'] eqn:Hdiff; simpl in Hrun.
    + assert (exists chunks', retrieveGit_loop git commits rest chunks'
                (mkWorld (SqliteDb_db w) (SqliteDb_indexSqlitePath w)
                   (trace w ++ [GetChangeByHash (Commit.hash commit) (Ok changes)]) env')
                = (r, w')) as [chunks' Hrun'].
      { destruct (String.eqb changes ""); eauto. }
      apply IH in Hrun' as (calls & Htrace & Hraised). simpl in Htrace.
      exists (GetChangeByHash (Commit.hash commit) (Ok changes) :: calls).
      split; [by rewrite Htrace, <- app_assoc|].
      intros ev e Hev Hr. apply elem_of_cons in Hev as [->|Hev]; [|eauto].
      answered_call_raised Hr.
    + injection Hrun as <- <-. simpl.
      exists [GetChangeByHash (Commit.hash commit) (Throw e0)]. split; [done|].
      intros ev e Hev Hr. apply list_elem_of_singleton in Hev as ->.
      destruct Hr as [Hr|[hash Hr]]; [discriminate Hr | by injection Hr as _ ->].
Qed.

(** ** [retrieveGit] *)

Lemma slice0_prefix {A} (a : list A) (end_ : Z) : Js.slice0 a end_ `prefix_of` a.
Proof. unfold Js.slice0. destruct (end_ <? 0); apply prefix_take. Qed.

Lemma passes_not_minus_one results threshold k :
  passes results threshold k -> k ≠ -1.
Proof. intros (i & s & -> & _). lia. Qed.

Lemma elem_of_chunks_of_answers (answers : list answer) (chunk : Chunk.t) :
  chunk ∈ flat_map chunks_of_answer answers ->
  exists a, a ∈ answers /\ a.2 ≠ "" /\ chunk = commit_chunk a.1 a.2.
Proof.
  induction answers as [|a answers IH]; simpl; [intros H; inversion H|].
  rewrite elem_of_app. intros [Ha|Hrest].
  - unfold chunks_of_answer in Ha. destruct (String.eqb a.2 "") eqn:E.
    + inversion Ha.
    + apply list_elem_of_singleton in Ha. exists a.
      split; [left | split; [by apply String.eqb_neq | done]].
  - destruct (IH Hrest) as (a' & Ha' & Hne & ->).
    exists a'. split; [by right | done].
Qed.

Lemma length_chunks_of_answers (answers : list answer) :
  (length (flat_map chunks_of_answer answers)
   + length (List.filter empty_diff answers) = length answers)%nat.
Proof.
  induction answers as [|a answers IH]; simpl; [done|].
  rewrite length_app. unfold chunks_of_answer in *.
  change (empty_diff a) with (String.eqb a.2 "").
  destruct (String.eqb a.2 ""); simpl; lia.
Qed.

(** A run of [retrieveGit] that returns: the commits it was given, one
    answer per index of the window, in the order of the window, and the
    chunks of these answers. *)
Lemma retrieveGit_ok `{Host} (git : GitAction) (term : RetrievalQueryTerm.t Tag)
    (threshold : option Js.number) (w w' : World) (chunks : list Chunk.t) :
  retrieveGit git term threshold w = (Ok chunks, w') ->
  exists (commits : list Commit.t) (answers : list answer),
    let results :=
      tfidf_search (map Commit.message commits) (RetrievalQueryTerm.query term) in
    let indexes := passing_indexes results (default Js.lit_0_6 threshold) in
    (git_getHistoryCommits git (env w)).1 = Ok commits
    /\ trace w' = trace w ++ GetHistoryCommits (Ok commits) :: map fetch_event answers
    /\ Forall2 (fun index a => commits_at commits index = Some a.1)
         (Js.slice0 indexes (RetrievalQueryTerm.n term)) answers
    /\ chunks = flat_map chunks_of_answer answers.
Proof.
  unfold retrieveGit. rewrite bind_run. unfold getHistoryCommits. rewrite call_run.
  destruct (git_getHistoryCommits git (env w)) as [[commits|e] env1]; simpl; [|done].
  set (results := tfidf_search _ _).
  set (indexes := passing_indexes results _).
  intros Hrun. exists commits.
  destruct (length indexes =? 0)%nat eqn:Hlen.
  - injection Hrun as <- <-. exists []. cbv zeta. fold results indexes.
    do 2 (split; [done|]). split; [|done].
    apply Nat.eqb_eq, nil_length_inv in Hlen. rewrite Hlen.
    unfold Js.slice0. destruct (_ <? 0); rewrite take_nil; constructor.
  - apply retrieveGit_loop_ok in Hrun as (answers & Htrace & Hanswers & ->).
    + exists answers. cbv zeta. fold results indexes.
      simpl in Htrace. rewrite Htrace, <- app_assoc. done.
    + apply Forall_forall. intros index Hindex.
      eapply passes_not_minus_one, passing_indexes_elem_of.
      eapply elem_of_prefix; [exact Hindex | apply slice0_prefix].
Qed.

Lemma commits_at_of_nat (commits : list Commit.t) (i : nat) :
  commits_at commits (Z.of_nat i) = commits !! i.
Proof.
  unfold commits_at.
  replace (Z.of_nat i <? 0) with false by (symmetry; apply Z.ltb_ge; lia).
  by rewrite Nat2Z.id.
Qed.

Lemma sort_insert_Permutation {A} (comparefn : A -> A -> Js.number) (x : A) (l : list A) :
  Js.sort_insert comparefn x l ≡ₚ x :: l.
Proof.
  induction l as [|y l IH]; simpl; [done|].
  destruct (Js.SortCompare comparefn x y); [done | done |].
  rewrite IH. apply Permutation_swap.
Qed.

Lemma sort_Permutation {A} (comparefn : A -> A -> Js.number) (l : list A) :
  Js.sort comparefn l ≡ₚ l.
Proof.
  induction l as [|x l IH]; simpl; [done|].
  by rewrite sort_insert_Permutation, IH.
Qed.

Lemma passing_indexes_NoDup results threshold :
  NoDup (passing_indexes results threshold).
Proof.
  unfold passing_indexes. rewrite sort_Permutation.
  destruct (candidates_spec threshold results) as [_ Hsorted].
  induction Hsorted as [|x l Hsorted IH Hx]; constructor; [|done].
  intros Hin. rewrite Forall_forall in Hx. specialize (Hx _ Hin). lia.
Qed.

Lemma chunk_of_answer_elem_of (answers : list answer) (a : answer) :
  a ∈ answers -> a.2 ≠ "" ->
  commit_chunk a.1 a.2 ∈ flat_map chunks_of_answer answers.
Proof.
  intros Ha Hne. induction answers as [|a' answers IH]; [inversion Ha|].
  simpl. apply elem_of_app.
  apply elem_of_cons in Ha as [<-|Ha]; [|right; by apply IH].
  left. unfold chunks_of_answer.
  apply String.eqb_neq in Hne. rewrite Hne. by left.
Qed.

(** The loop returns when every index has a commit and every call to
    [getChangeByHash] is answered. *)
Lemma retrieveGit_loop_returns `{Host} (git : GitAction) (commits : list Commit.t)
    (indexes : list Z) (chunks : list Chunk.t) (w : World) :
  (forall hash e0, exists changes e1,
     git_getChangeByHash git hash e0 = (Ok changes, e1)) ->
  Forall (fun index => is_Some (commits_at commits index)) indexes ->
  exists out w', retrieveGit_loop git commits indexes chunks w = (Ok out, w').
Proof.
  intros Hgit Hall. revert chunks w.
  induction Hall as [|index rest [commit Hcommit] Hall IH]; intros chunks w; simpl.
  - by eexists _, _.
  - destruct (index =? -1); [apply IH|]. rewrite Hcommit, bind_run.
    unfold getChangeByHash. rewrite call_run.
    destruct (Hgit (Commit.hash commit) (env w)) as (changes & e1 & ->). simpl.
    destruct (String.eqb changes ""); apply IH.
Qed.

(** C1. The indices [retrieveGit] keeps (the array [indexes], before the
    cap) are exactly the indices of [results] whose score is strictly above
    the threshold, each once; an index whose score equals the threshold is
    not kept.  A run that returns has fetched the diff of the commit at
    each index of [indexes.slice(0, n)], in order, and of no other, and
    its chunks are those of the non-empty diffs: every chunk comes from a
    commit whose score is strictly above the threshold, never from one
    whose score equals it, and when the cap does not cut the array, every
    commit whose score is strictly above the threshold is fetched, and
    returned if its diff is not empty.  The run does return when the
    scorer gives one score for each commit and [getChangeByHash] answers
    every call. *)
Theorem retrieveGit_threshold_strict `{Host} (git : GitAction)
    (term : RetrievalQueryTerm.t Tag) (threshold : option Js.number)
    (commits : list Commit.t) :
  let t := default Js.lit_0_6 threshold in
  let results :=
    tfidf_search (map Commit.message commits) (RetrievalQueryTerm.query term) in
  let indexes := passing_indexes results t in
  (forall k, k ∈ indexes <->
     exists i score, k = Z.of_nat i /\ results !! i = Some score
                     /\ Js.gt score t = true)
  /\ NoDup indexes
  /\ (forall i score,
        results !! i = Some score -> Js.eq score t = true -> Z.of_nat i ∉ indexes)
  /\ (forall w env1 w' chunks,
        git_getHistoryCommits git (env w) = (Ok commits, env1) ->
        retrieveGit git term threshold w = (Ok chunks, w') ->
        exists answers : list answer,
          trace w' = trace w ++ GetHistoryCommits (Ok commits)
                               :: map fetch_event answers
          /\ Forall2 (fun index a => commits_at commits index = Some a.1)
               (Js.slice0 indexes (RetrievalQueryTerm.n term)) answers
          /\ chunks = flat_map chunks_of_answer answers
          /\ (forall chunk, chunk ∈ chunks ->
                exists i score commit,
                  results !! i = Some score /\ Js.gt score t = true
                  /\ Js.eq score t = false
                  /\ commits !! i = Some commit
                  /\ Chunk.filepath chunk = Commit.hash commit)
          /\ (Z.of_nat (length indexes) <= RetrievalQueryTerm.n term ->
              forall i score,
                results !! i = Some score -> Js.gt score t = true ->
                exists a : answer,
                  a ∈ answers /\ commits !! i = Some a.1
                  /\ (a.2 ≠ "" -> commit_chunk a.1 a.2 ∈ chunks)))
  /\ (forall w env1,
        git_getHistoryCommits git (env w) = (Ok commits, env1) ->
        length results = length commits ->
        (forall hash e0, exists changes e1,
           git_getChangeByHash git hash e0 = (Ok changes, e1)) ->
        exists chunks w', retrieveGit git term threshold w = (Ok chunks, w')).
Proof.
  intros t results indexes. split; [|split; [|split; [|split]]].
  - intros k. apply passing_indexes_elem_of.
  - apply passing_indexes_NoDup.
  - intros i score Hi Heq Hin.
    apply passing_indexes_elem_of in Hin as (i' & s' & Hii' & Hi' & Hgt).
    apply Nat2Z.inj in Hii' as <-. rewrite Hi in Hi'. injection Hi' as <-.
    apply gt_eq_false in Heq. congruence.
  - intros w env1 w' chunks Hhistory Hrun.
    apply retrieveGit_ok in Hrun
      as (commits' & answers & Hcommits & Htrace & Hanswers & ->).
    rewrite Hhistory in Hcommits. injection Hcommits as <-.
    cbv zeta in Hanswers. fold results t indexes in Hanswers.
    exists answers. do 3 (split; [done|]). split.
    + intros chunk Hchunk.
      apply elem_of_chunks_of_answers in Hchunk as (a & Ha & _ & ->).
      apply list_elem_of_lookup_1 in Ha as [p Hp].
      destruct (Forall2_lookup_r _ _ _ _ _ Hanswers Hp) as (index & Hindex & Hcommit).
      apply list_elem_of_lookup_2 in Hindex.
      eapply elem_of_prefix in Hindex; [|apply slice0_prefix].
      apply passing_indexes_elem_of in Hindex as (i & score & -> & Hi & Hgt).
      rewrite commits_at_of_nat in Hcommit.
      exists i, score, a.1. repeat split; try done.
      destruct (Js.eq score t) eqn:Heq; [|done].
      apply gt_eq_false in Heq. fold t in Hgt. congruence.
    + intros Hcap i score Hi Hgt.
      assert (Js.slice0 indexes (RetrievalQueryTerm.n term) = indexes) as Hwindow.
      { unfold Js.slice0.
        replace (RetrievalQueryTerm.n term <? 0) with false
          by (symmetry; apply Z.ltb_ge; lia).
        apply take_ge. lia. }
      rewrite Hwindow in Hanswers.
      assert (Z.of_nat i ∈ indexes) as Hin.
      { apply passing_indexes_elem_of. by exists i, score. }
      apply list_elem_of_lookup_1 in Hin as [p Hp].
      destruct (Forall2_lookup_l _ _ _ _ _ Hanswers Hp) as (a & Ha & Hcommit).
      rewrite commits_at_of_nat in Hcommit.
      apply list_elem_of_lookup_2 in Ha.
      exists a. split; [done|]. split; [done|].
      by apply chunk_of_answer_elem_of.
  - intros w env1 Hhistory Hlen Hgit.
    unfold retrieveGit. rewrite bind_run. unfold getHistoryCommits.
    rewrite call_run, Hhistory. simpl. fold results. fold t. fold indexes.
    destruct (length indexes =? 0)%nat; [by eexists _, _|].
    apply retrieveGit_loop_returns; [done|].
    apply Forall_forall. intros index Hindex.
    eapply elem_of_prefix in Hindex; [|apply slice0_prefix].
    apply passing_indexes_elem_of in Hindex as (i & score & -> & Hi & _).
    rewrite commits_at_of_nat. apply lookup_lt_is_Some.
    apply lookup_lt_Some in Hi. lia.
Qed.

(** C2. Before the cap, the kept indices are in descending order of
    score, and two kept indices of equal score are in ascending order of
    index; the cap keeps a prefix of that ranking, and a run that returns
    fetched the commits of that prefix, in its order. *)
Theorem retrieveGit_ranked `{Host} (git : GitAction)
    (term : RetrievalQueryTerm.t Tag) (threshold : option Js.number)
    (commits : list Commit.t) :
  let t := default Js.lit_0_6 threshold in
  let results :=
    tfidf_search (map Commit.message commits) (RetrievalQueryTerm.query term) in
  let indexes := passing_indexes results t in
  let window := Js.slice0 indexes (RetrievalQueryTerm.n term) in
  (forall p q a b,
     (p < q)%nat -> indexes !! p = Some a -> indexes !! q = Some b ->
     Js.ge (Js.at_number results a) (Js.at_number results b) = true
     /\ (Js.eq (Js.at_number results a) (Js.at_number results b) = true -> a < b))
  /\ window `prefix_of` indexes
  /\ (forall w env1 w' chunks,
        git_getHistoryCommits git (env w) = (Ok commits, env1) ->
        retrieveGit git term threshold w = (Ok chunks, w') ->
        exists answers : list answer,
          trace w' = trace w ++ GetHistoryCommits (Ok commits)
                               :: map fetch_event answers
          /\ Forall2 (fun index a => commits_at commits index = Some a.1)
               window answers).
Proof.
  intros t results indexes window. split; [|split].
  - intros p q a b Hpq Ha Hb.
    exact (StronglySorted_lookup _ _ _ _ _ _
             (passing_indexes_ranked results t) Hpq Ha Hb).
  - apply slice0_prefix.
  - intros w env1 w' chunks Hhistory Hrun.
    apply retrieveGit_ok in Hrun
      as (commits' & answers & Hcommits & Htrace & Hanswers & _).
    rewrite Hhistory in Hcommits. injection Hcommits as <-.
    by exists answers.
Qed.

(** C3. In a run that returns, one diff is fetched for each index of the
    window (the ranking cut at the cap), in order, and for nothing else: no
    commit past the window is fetched.  The chunks are those of the
    non-empty diffs, one each, in order; a commit of the window whose diff
    is the empty string gives no chunk, so that the number of chunks is the
    length of the window less one for each empty diff, and is below the
    length of the window as soon as one diff is empty. *)
Theorem retrieveGit_empty_diff_skipped `{Host} (git : GitAction)
    (term : RetrievalQueryTerm.t Tag) (threshold : option Js.number)
    (w w' : World) (chunks : list Chunk.t) :
  retrieveGit git term threshold w = (Ok chunks, w') ->
  exists (commits : list Commit.t) (answers : list answer),
    let results :=
      tfidf_search (map Commit.message commits) (RetrievalQueryTerm.query term) in
    let window :=
      Js.slice0 (passing_indexes results (default Js.lit_0_6 threshold))
        (RetrievalQueryTerm.n term) in
    trace w' = trace w ++ GetHistoryCommits (Ok commits) :: map fetch_event answers
    /\ Forall2 (fun index a => commits_at commits index = Some a.1) window answers
    /\ chunks = flat_map chunks_of_answer answers
    /\ (forall a, a.2 = "" -> chunks_of_answer a = [])
    /\ (forall chunk, chunk ∈ chunks ->
          exists a, a ∈ answers /\ a.2 ≠ "" /\ chunk = commit_chunk a.1 a.2)
    /\ (length chunks + length (List.filter empty_diff answers) = length window)%nat
    /\ (forall a, a ∈ answers -> a.2 = "" -> (length chunks < length window)%nat).
Proof.
  intros Hrun.
  apply retrieveGit_ok in Hrun as (commits & answers & _ & Htrace & Hanswers & ->).
  exists commits, answers. cbv zeta.
  pose proof (length_chunks_of_answers answers) as Hlen.
  pose proof (Forall2_length _ _ _ Hanswers) as Hwindow.
  unfold answer in *.
  repeat split; try done.
  - intros a Ha. unfold chunks_of_answer. by rewrite Ha.
  - apply elem_of_chunks_of_answers.
  - lia.
  - intros a Ha Hempty.
    assert (a ∈ List.filter empty_diff answers) as Hin.
    { apply list_elem_of_In, filter_In. split; [by apply list_elem_of_In|].
      unfold empty_diff. by rewrite Hempty. }
    assert (0 < length (List.filter empty_diff answers))%nat;
      [|unfold answer in *; lia].
    destruct (List.filter empty_diff answers); [inversion Hin | simpl; lia].
Qed.

(** C7. [retrieveGit] only adds calls to the trace, the first being
    [getHistoryCommits]; if that call throws, [retrieveGit] throws the
    same exception and does nothing else; and whenever a call to the
    source control made during the run threw an exception, be it
    [getHistoryCommits] or [getChangeByHash], the run throws that
    exception: it does not return an array, empty or not. *)
Theorem retrieveGit_propagates `{Host} (git : GitAction)
    (term : RetrievalQueryTerm.t Tag) (threshold : option Js.number)
    (w w' : World) (r : outcome (list Chunk.t)) :
  retrieveGit git term threshold w = (r, w') ->
  (forall e env1,
     git_getHistoryCommits git (env w) = (Throw e, env1) ->
     r = Throw e
     /\ trace w' = trace w ++ [GetHistoryCommits (Throw e)]
     /\ env w' = env1)
  /\ exists calls,
       trace w' = trace w ++ calls
       /\ forall ev e, ev ∈ calls -> git_raised ev e ->
            r = Throw e /\ forall chunks, r ≠ Ok chunks.
Proof.
  unfold retrieveGit. rewrite bind_run. unfold getHistoryCommits. rewrite call_run.
  destruct (git_getHistoryCommits git (env w)) as [[commits|e0] env1] eqn:Hhistory;
    simpl.
  - set (indexes := passing_indexes _ _). intros Hrun. split; [done|].
    assert (exists calls,
              trace w' = (trace w ++ [GetHistoryCommits (Ok commits)]) ++ calls
              /\ forall ev e, ev ∈ calls -> git_raised ev e -> r = Throw e)
      as (calls & Htrace & Hraised).
    { destruct (length indexes =? 0)%nat.
      - injection Hrun as <- <-. simpl. exists [].
        split; [by rewrite app_nil_r | no_call].
      - apply retrieveGit_loop_raised in Hrun. exact Hrun. }
    exists (GetHistoryCommits (Ok commits) :: calls).
    split; [by rewrite Htrace, <- app_assoc|].
    intros ev e Hev Hr. apply elem_of_cons in Hev as [->|Hev].
    + answered_call_raised Hr.
    + rewrite (Hraised ev e Hev Hr). split; [done | intros chunks; discriminate].
  - intros Hrun. injection Hrun as <- <-. simpl. split.
    + intros e env1' He. by injection He as <- <-.
    + exists [GetHistoryCommits (Throw e0)]. split; [done|].
      intros ev e Hev Hr. apply list_elem_of_singleton in Hev as ->.
      destruct Hr as [Hr|[hash Hr]]; [|discriminate Hr].
      injection Hr as <-. split; [done | intros chunks; discriminate].
Qed.

(** ** [retrieveFts] *)

(** [retrieveFts], run: nothing on a blank query; otherwise one call to the
    engine, and a warning when the call threw. *)
Lemma retrieveFts_run `{Host} (term : RetrievalQueryTerm.t Tag) (w : World) :
  retrieveFts term w
  = if String.eqb (Js.trim (RetrievalQueryTerm.query term)) "" then (Ok [], w)
    else
      match fts_retrieve (retrieveFts_args term) (env w) with
      | (Ok chunks, env') =>
          (Ok chunks,
           mkWorld (SqliteDb_db w) (SqliteDb_indexSqlitePath w)
             (trace w ++ [FtsRetrieve (retrieveFts_args term) (Ok chunks)]) env')
      | (Throw e, env') =>
          (Ok [],
           mkWorld (SqliteDb_db w) (SqliteDb_indexSqlitePath w)
             (trace w ++ [FtsRetrieve (retrieveFts_args term) (Throw e);
                          ConsoleWarn "Error retrieving from FTS:" e]) env')
      end.
Proof.
  unfold retrieveFts, try_catch. rewrite bind_run.
  destruct (String.eqb (Js.trim (RetrievalQueryTerm.query term)) ""); simpl; [done|].
  unfold ftsIndex_retrieve. rewrite call_run.
  fold (retrieveFts_args term).
  destruct (fts_retrieve (retrieveFts_args term) (env w)) as [[chunks|e] env']; simpl.
  - done.
  - rewrite bind_run. unfold console_warn. simpl.
    unfold mret, M_ret. by rewrite <- app_assoc.
Qed.

(** C4. [retrieveFts] never throws; when the engine throws, the exception
    is caught, a warning carrying it is written to the console, and the
    result is the empty array. *)
Theorem retrieveFts_fail_soft `{Host} (term : RetrievalQueryTerm.t Tag) (w : World) :
  (exists chunks w', retrieveFts term w = (Ok chunks, w'))
  /\ (forall e env',
        Js.trim (RetrievalQueryTerm.query term) ≠ "" ->
        fts_retrieve (retrieveFts_args term) (env w) = (Throw e, env') ->
        retrieveFts term w
        = (Ok [],
           mkWorld (SqliteDb_db w) (SqliteDb_indexSqlitePath w)
             (trace w ++ [FtsRetrieve (retrieveFts_args term) (Throw e);
                          ConsoleWarn "Error retrieving from FTS:" e]) env')).
Proof.
  rewrite retrieveFts_run. split.
  - destruct (String.eqb _ ""); [by eauto|].
    destruct (fts_retrieve _ _) as [[chunks|e] env']; eauto.
  - intros e env' Hquery Hthrow. apply String.eqb_neq in Hquery.
    by rewrite Hquery, Hthrow.
Qed.

(** C5. On a query that is empty once trimmed, [retrieveFts] returns the
    empty array and leaves the world as it was: no call to the engine, no
    warning. *)
Theorem retrieveFts_blank_query `{Host} (term : RetrievalQueryTerm.t Tag) (w : World) :
  Js.trim (RetrievalQueryTerm.query term) = "" ->
  retrieveFts term w = (Ok [], w).
Proof. intros Hblank. by rewrite retrieveFts_run, Hblank. Qed.

(** *** [split] and [join] *)

Lemma split_not_nil (sep : ascii) (s : string) : Js.split sep s ≠ [].
Proof.
  destruct s as [|c s]; simpl; [done|].
  destruct (Ascii.eqb c sep); [done|]. by destruct (Js.split sep s).
Qed.

Lemma join_cons (sep piece : string) (rest : list string) :
  rest ≠ [] -> Js.join sep (piece :: rest) = piece +:+ sep +:+ Js.join sep rest.
Proof. by destruct rest. Qed.

(** Joining the pieces with the separator gives the string back. *)
Lemma join_split (sep : ascii) (s : string) :
  Js.join (String sep EmptyString) (Js.split sep s) = s.
Proof.
  induction s as [|c s IH]; simpl; [done|].
  destruct (Ascii.eqb c sep) eqn:Hc.
  - apply Ascii.eqb_eq in Hc as ->.
    rewrite join_cons by apply split_not_nil. simpl. by rewrite IH.
  - destruct (Js.split sep s) as [|piece pieces] eqn:Hsplit.
    + by apply split_not_nil in Hsplit.
    + destruct pieces as [|piece' pieces].
      * simpl in *. by rewrite IH.
      * rewrite join_cons by done. rewrite join_cons in IH by done.
        by rewrite <- IH.
Qed.

(** No piece holds the separator. *)
Lemma split_no_sep (sep : ascii) (s : string) :
  Forall (fun piece => occurs sep piece = false) (Js.split sep s).
Proof.
  induction s as [|c s IH]; simpl; [by repeat constructor|].
  destruct (Ascii.eqb c sep) eqn:Hc; [by constructor|].
  destruct (Js.split sep s) as [|piece pieces] eqn:Hsplit;
    [by apply split_not_nil in Hsplit|].
  apply Forall_cons in IH as [Hpiece Hpieces].
  constructor; [|done]. simpl. by rewrite Hc, Hpiece.
Qed.

Lemma append_cons (c : ascii) (s1 s2 : string) :
  String c s1 +:+ s2 = String c (s1 +:+ s2).
Proof. reflexivity. Qed.

Lemma append_nil_l (s : string) : "" +:+ s = s.
Proof. reflexivity. Qed.

Lemma append_assoc (s1 s2 s3 : string) : (s1 +:+ s2) +:+ s3 = s1 +:+ (s2 +:+ s3).
Proof.
  induction s1 as [|c s1 IH]; [done|]. by rewrite !append_cons, IH.
Qed.

Lemma append_nil_r (s : string) : s +:+ "" = s.
Proof. induction s as [|c s IH]; [done|]. by rewrite append_cons, IH. Qed.

Lemma split_app_piece (sep : ascii) (piece s : string) :
  occurs sep piece = false ->
  Js.split sep (piece +:+ s)
  = match Js.split sep s with
    | [] => [piece]
    | first :: pieces => (piece +:+ first) :: pieces
    end.
Proof.
  induction piece as [|c piece IH].
  - rewrite append_nil_l. intros _.
    destruct (Js.split sep s) eqn:Hsplit; [by apply split_not_nil in Hsplit | done].
  - rewrite append_cons. simpl. intros H. apply orb_false_iff in H as [Hc Hpiece].
    rewrite Hc, IH by done. by destruct (Js.split sep s).
Qed.

Lemma split_sep (sep : ascii) (s : string) :
  Js.split sep (String sep s) = "" :: Js.split sep s.
Proof. simpl. by rewrite Ascii.eqb_refl. Qed.

(** Pieces that do not hold the separator are what [split] finds in their
    [join]. *)
Lemma split_join (sep : ascii) (pieces : list string) :
  pieces ≠ [] ->
  Forall (fun piece => occurs sep piece = false) pieces ->
  Js.split sep (Js.join (String sep EmptyString) pieces) = pieces.
Proof.
  induction pieces as [|piece rest IH]; [done|]. intros _ Hall.
  apply Forall_cons in Hall as [Hpiece Hrest].
  destruct rest as [|piece' rest].
  - simpl. rewrite <- (append_nil_r piece) at 1.
    rewrite split_app_piece by done. simpl. by rewrite append_nil_r.
  - rewrite join_cons by done. rewrite split_app_piece by done.
    rewrite append_cons, append_nil_l, split_sep, IH by done.
    by rewrite append_nil_r.
Qed.

Lemma whitespace_tokens_from_word (token word rest : string) :
  no_white_space word = true ->
  whitespace_tokens_from token (word +:+ rest)
  = whitespace_tokens_from (token +:+ word) rest.
Proof.
  revert token. induction word as [|c word IH]; intros token.
  - intros _. by rewrite append_nil_l, append_nil_r.
  - rewrite append_cons. simpl. intros H. apply andb_true_iff in H as [Hc Hword].
    apply negb_true_iff in Hc. rewrite Hc, IH by done.
    by rewrite append_assoc, append_cons, append_nil_l.
Qed.

Lemma whitespace_tokens_from_space (token s : string) :
  token ≠ "" ->
  whitespace_tokens_from token (String " " s)
  = token :: whitespace_tokens_from "" s.
Proof. by destruct token. Qed.

(** Words joined by one space each are the tokens the specification
    means. *)
Lemma whitespace_tokens_join (words : list string) :
  Forall is_word words ->
  whitespace_tokens (Js.join " " words) = words.
Proof.
  unfold whitespace_tokens.
  induction words as [|word rest IH]; [done|]. intros Hall.
  apply Forall_cons in Hall as [[Hne Hword] Hrest].
  destruct rest as [|word' rest].
  - simpl. rewrite <- (append_nil_r word) at 1.
    rewrite whitespace_tokens_from_word by done.
    rewrite append_nil_l. simpl. by destruct word.
  - rewrite join_cons by done. rewrite whitespace_tokens_from_word by done.
    rewrite !append_cons, !append_nil_l.
    rewrite whitespace_tokens_from_space by done. by rewrite IH.
Qed.

Lemma no_white_space_no_space (s : string) :
  no_white_space s = true -> occurs " " s = false.
Proof.
  induction s as [|c s IH]; simpl; [done|].
  intros H. apply andb_true_iff in H as [Hc Hs].
  rewrite IH by done. rewrite orb_false_r.
  destruct (Ascii.eqb c " ") eqn:E; [|done].
  apply Ascii.eqb_eq in E as ->. done.
Qed.

(** C6, as the code has it. On a query that is not empty once trimmed,
    [retrieveFts] calls the engine once, with the query string made of the
    pieces of the trimmed input between its space characters (code unit
    32), each wrapped in double quotes, joined with [" OR "]: the pieces
    joined with one space give the trimmed input back and none holds a
    space.  When the trimmed input is words separated by one space each,
    the pieces are the words, and the query string is the one the
    specification describes. *)
Theorem retrieveFts_query_pieces `{Host} (term : RetrievalQueryTerm.t Tag) (w : World) :
  Js.trim (RetrievalQueryTerm.query term) ≠ "" ->
  exists (r : outcome (list Chunk.t)) (pieces : list string),
    let args := retrieveFts_args term in
    trace (retrieveFts term w).2
    = trace w ++ FtsRetrieve args r
                 :: match r with
                    | Ok _ => []
                    | Throw e => [ConsoleWarn "Error retrieving from FTS:" e]
                    end
    /\ FtsArgs.text args = Js.join " OR " (map Js.quoted pieces)
    /\ Js.join " " pieces = Js.trim (RetrievalQueryTerm.query term)
    /\ Forall (fun piece => occurs " " piece = false) pieces
    /\ (forall words,
          Forall is_word words ->
          Js.trim (RetrievalQueryTerm.query term) = Js.join " " words ->
          pieces = words
          /\ FtsArgs.text args = spec_fts_query (RetrievalQueryTerm.query term)).
Proof.
  intros Hquery. rewrite retrieveFts_run.
  apply String.eqb_neq in Hquery. rewrite Hquery.
  exists (fts_retrieve (retrieveFts_args term) (env w)).1,
         (Js.split " " (Js.trim (RetrievalQueryTerm.query term))).
  cbv zeta. split; [|split; [|split; [|split]]].
  - by destruct (fts_retrieve _ _) as [[chunks|e] env'].
  - done.
  - apply join_split.
  - apply split_no_sep.
  - intros words Hwords Htrim.
    assert (words ≠ []) as Hne.
    { intros ->. simpl in Htrim. rewrite Htrim in Hquery. done. }
    assert (Js.split " " (Js.trim (RetrievalQueryTerm.query term)) = words) as Hsplit.
    { rewrite Htrim. apply split_join; [done|].
      eapply Forall_impl; [exact Hwords|]. intros s [_ Hs].
      by apply no_white_space_no_space. }
    split; [done|].
    unfold retrieveFts_args, spec_fts_query, fts_query. simpl.
    by rewrite Hsplit, Htrim, whitespace_tokens_join.
Qed.

(** ** [SqliteDb.get] *)

Lemma cached_run `{Host} (w : World) :
  cached w
  = (Ok match SqliteDb_db w with
        | Some _ => fs_existsSync (SqliteDb_indexSqlitePath w) (env w)
        | None => false
        end, w).
Proof.
  unfold cached. rewrite bind_run.
  change (read_db w) with (Ok (SqliteDb_db w), w).
  destruct (SqliteDb_db w); [|done]. by rewrite bind_run.
Qed.

Lemma get_run `{Host} (w : World) :
  get w
  = match SqliteDb_db w with
    | Some db =>
        if fs_existsSync (SqliteDb_indexSqlitePath w) (env w)
        then (Ok (Some db), w)
        else reopen w
    | None => reopen w
    end.
Proof.
  change (get w)
    with ((hit ← cached; if (hit : bool) then read_db else reopen) w).
  rewrite bind_run, cached_run.
  destruct (SqliteDb_db w) as [db|] eqn:Hdb; [|done].
  destruct (fs_existsSync _ _); [|done].
  unfold read_db. by rewrite Hdb.
Qed.

Lemma getIndexSqlitePath_run `{Host} (w : World) :
  getIndexSqlitePath w
  = match getIndexFolderPath (env w) with
    | (Ok folder, env1) =>
        (Ok (path_join folder "autodev-index.sqlite"),
         mkWorld (SqliteDb_db w) (SqliteDb_indexSqlitePath w)
           (trace w ++ [GetIndexFolderPath (Ok folder)]) env1)
    | (Throw e, env1) =>
        (Throw e,
         mkWorld (SqliteDb_db w) (SqliteDb_indexSqlitePath w)
           (trace w ++ [GetIndexFolderPath (Throw e)]) env1)
    end.
Proof.
  unfold getIndexSqlitePath. rewrite bind_run, call_run.
  by destruct (getIndexFolderPath (env w)) as [[folder|e] env1].
Qed.

(** [reopen], step by step: the first collaborator that throws ends it. *)
Lemma reopen_run `{Host} (w : World) :
  reopen w
  = match getIndexFolderPath (env w) with
    | (Throw e, env1) =>
        (Throw e,
         mkWorld (SqliteDb_db w) (SqliteDb_indexSqlitePath w)
           (trace w ++ [GetIndexFolderPath (Throw e)]) env1)
    | (Ok folder, env1) =>
        let p := path_join folder "autodev-index.sqlite" in
        match sqlite_open p env1 with
        | (Throw e, env2) =>
            (Throw e,
             mkWorld (SqliteDb_db w) p
               (trace w ++ [GetIndexFolderPath (Ok folder); SqliteOpen p (Throw e)])
               env2)
        | (Ok db, env2) =>
            match db_exec db sql_tag_catalog env2 with
            | (Throw e, env3) =>
                (Throw e,
                 mkWorld (Some db) p
                   (trace w ++ [GetIndexFolderPath (Ok folder); SqliteOpen p (Ok db);
                                DbExec db sql_tag_catalog (Throw e)])
                   env3)
            | (Ok _, env3) =>
                match db_exec db sql_global_cache env3 with
                | (Throw e, env4) =>
                    (Throw e,
                     mkWorld (Some db) p
                       (trace w ++ [GetIndexFolderPath (Ok folder);
                                    SqliteOpen p (Ok db);
                                    DbExec db sql_tag_catalog (Ok tt);
                                    DbExec db sql_global_cache (Throw e)])
                       env4)
                | (Ok _, env4) =>
                    (Ok (Some db),
                     mkWorld (Some db) p (trace w ++ reopen_calls folder db) env4)
                end
            end
        end
    end.
Proof.
  unfold reopen. rewrite bind_run, getIndexSqlitePath_run.
  destruct (getIndexFolderPath (env w)) as [[folder|e] env1]; [|done].
  rewrite bind_run. unfold write_indexSqlitePath. simpl.
  rewrite bind_run. unfold read_indexSqlitePath. simpl.
  rewrite bind_run. unfold open. rewrite call_run. simpl.
  destruct (sqlite_open _ env1) as [[db|e] env2]; simpl;
    [|by rewrite <- app_assoc].
  rewrite bind_run. unfold write_db. simpl.
  rewrite bind_run. unfold createTables. rewrite bind_run.
  unfold exec. rewrite call_run. simpl.
  destruct (db_exec db sql_tag_catalog env2) as [[[]|e] env3]; simpl;
    [|by rewrite <- !app_assoc].
  rewrite call_run. simpl.
  destruct (db_exec db sql_global_cache env3) as [[[]|e] env4]; simpl;
    by rewrite <- !app_assoc.
Qed.

Lemma reopen_ok `{Host} (w w' : World) (r : option DatabaseConnection) :
  reopen w = (Ok r, w') ->
  exists folder db,
    r = Some db
    /\ w' = mkWorld (Some db) (path_join folder "autodev-index.sqlite")
              (trace w ++ reopen_calls folder db) (env w').
Proof.
  rewrite reopen_run.
  destruct (getIndexFolderPath (env w)) as [[folder|e] env1]; [|done].
  cbv zeta.
  destruct (sqlite_open _ env1) as [[db|e] env2]; [|done].
  destruct (db_exec db sql_tag_catalog env2) as [[[]|e] env3]; [|done].
  destruct (db_exec db sql_global_cache env3) as [[[]|e] env4]; [|done].
  intros Hrun. injection Hrun as <- <-. by exists folder, db.
Qed.

(** C9. When the field [db] holds a handle and the file at
    [indexSqlitePath] exists, [get] returns that handle and leaves the
    world as it was: nothing is opened, no table is created.  After a
    [get] that succeeded the field holds the handle it returned, so a later
    [get], the file still being there, returns the same handle.  When the
    field is null or the file is gone, a [get] that succeeds has asked for
    the index folder, opened the store at the path under it and run the
    two [CREATE TABLE IF NOT EXISTS] statements on the new handle, which
    it returns and keeps; and it succeeds when these four calls do. *)
Theorem get_cached_or_reopened `{Host} (w : World) :
  (forall db,
     SqliteDb_db w = Some db ->
     fs_existsSync (SqliteDb_indexSqlitePath w) (env w) = true ->
     get w = (Ok (Some db), w))
  /\ (forall r w1,
        get w = (Ok r, w1) ->
        exists db,
          r = Some db /\ SqliteDb_db w1 = Some db
          /\ forall w2,
               SqliteDb_db w2 = SqliteDb_db w1 ->
               SqliteDb_indexSqlitePath w2 = SqliteDb_indexSqlitePath w1 ->
               fs_existsSync (SqliteDb_indexSqlitePath w1) (env w2) = true ->
               get w2 = (Ok (Some db), w2))
  /\ (SqliteDb_db w = None
      \/ fs_existsSync (SqliteDb_indexSqlitePath w) (env w) = false ->
      (forall r w',
         get w = (Ok r, w') ->
         exists folder db,
           r = Some db
           /\ w' = mkWorld (Some db) (path_join folder "autodev-index.sqlite")
                     (trace w ++ reopen_calls folder db) (env w'))
      /\ (forall folder env1 db env2 env3 env4,
            getIndexFolderPath (env w) = (Ok folder, env1) ->
            sqlite_open (path_join folder "autodev-index.sqlite") env1
            = (Ok db, env2) ->
            db_exec db sql_tag_catalog env2 = (Ok tt, env3) ->
            db_exec db sql_global_cache env3 = (Ok tt, env4) ->
            get w
            = (Ok (Some db),
               mkWorld (Some db) (path_join folder "autodev-index.sqlite")
                 (trace w ++ reopen_calls folder db) env4)))
  /\ String.prefix "CREATE TABLE IF NOT EXISTS tag_catalog (" sql_tag_catalog = true
  /\ String.prefix "CREATE TABLE IF NOT EXISTS global_cache (" sql_global_cache = true.
Proof.
  assert (Hcached : forall w db,
            SqliteDb_db w = Some db ->
            fs_existsSync (SqliteDb_indexSqlitePath w) (env w) = true ->
            get w = (Ok (Some db), w)).
  { intros w0 db Hdb Hfile. by rewrite get_run, Hdb, Hfile. }
  assert (Hreopen :
            SqliteDb_db w = None
            \/ fs_existsSync (SqliteDb_indexSqlitePath w) (env w) = false ->
            get w = reopen w).
  { rewrite get_run. intros [->|Hgone]; [done|].
    rewrite Hgone. by destruct (SqliteDb_db w). }
  split; [|split; [|split; [|split]]].
  - apply Hcached.
  - intros r w1 Hget.
    assert (exists db, r = Some db /\ SqliteDb_db w1 = Some db) as (db & -> & Hdb).
    { rewrite get_run in Hget.
      destruct (SqliteDb_db w) as [db|] eqn:Hdb.
      - destruct (fs_existsSync _ _).
        + injection Hget as <- <-. by exists db.
        + apply reopen_ok in Hget as (folder & db' & -> & ->). by exists db'.
      - apply reopen_ok in Hget as (folder & db' & -> & ->). by exists db'. }
    exists db. do 2 (split; [done|]).
    intros w2 Hdb2 Hpath2 Hfile. apply Hcached; [congruence|].
    by rewrite Hpath2.
  - intros Hcond. rewrite (Hreopen Hcond). split.
    + intros r w' Hget. by apply reopen_ok.
    + intros folder env1 db env2 env3 env4 Hfolder Hopen Hfirst Hsecond.
      rewrite reopen_run, Hfolder. cbv zeta. by rewrite Hopen, Hfirst, Hsecond.
  - reflexivity.
  - reflexivity.
Qed.

(** ** The theorems at work on the small host *)

(** [deduplicateArray] with an order for [equal]: 2 and 5 have a kept item
    below them, 0 has none. *)
Lemma deduplicateArray_first_seen_witness :
  deduplicateArray [3; 1; 2; 5; 0]%nat Demo.below = [3; 1; 0]%nat
  /\ (exists later,
        deduplicateArray [3; 1; 2; 5; 0]%nat Demo.below
        = deduplicateArray [3; 1]%nat Demo.below
          ++ (if existsb (fun existingItem => Demo.below existingItem 2%nat)
                   (deduplicateArray [3; 1]%nat Demo.below)
              then [] else [2%nat])
          ++ later)
  /\ Demo.below 3 0 = false.
Proof.
  destruct (deduplicateArray_first_seen [3; 1; 2; 5; 0]%nat Demo.below)
    as (_ & Hstep & Hlater).
  split; [reflexivity|]. split.
  - exact (Hstep [3; 1]%nat 2%nat [5; 0]%nat eq_refl).
  - exact (Hlater 0%nat 2%nat 3%nat 0%nat (Nat.lt_0_succ 1) eq_refl eq_refl).
Defined.

(** The threshold is the score of the commit [c]: [c] is not kept.  The
    cap of 2 does not cut the two indices kept: the run fetches [a] and
    [d], and returns the chunk of [a], whose diff is not empty. *)
Lemma retrieveGit_threshold_strict_witness :
  passing_indexes Demo.scores (Js.Finite (1 # 2)) = [0; 3]
  /\ (Demo.scores !! 2%nat) = Some (Js.Finite (1 # 2))
  /\ (2 ∉ passing_indexes Demo.scores (Js.Finite (1 # 2)))
  /\ (exists answers : list answer,
        trace (@retrieveGit Demo.host Demo.git (Demo.term "login bug")
                 (Some (Js.Finite (1 # 2))) Demo.w0).2
        = trace Demo.w0 ++ GetHistoryCommits (Ok Demo.commits)
                           :: map fetch_event answers
        /\ Forall2 (fun index a => commits_at Demo.commits index = Some a.1)
             [0; 3] answers
        /\ [Demo.chunk_a] = flat_map chunks_of_answer answers
        /\ (forall chunk, chunk ∈ [Demo.chunk_a] ->
              exists i score commit,
                Demo.scores !! i = Some score
                /\ Js.gt score (Js.Finite (1 # 2)) = true
                /\ Js.eq score (Js.Finite (1 # 2)) = false
                /\ Demo.commits !! i = Some commit
                /\ Chunk.filepath chunk = Commit.hash commit)
        /\ (Z.of_nat (length [0; 3]) <= 2 ->
            forall i score,
              Demo.scores !! i = Some score ->
              Js.gt score (Js.Finite (1 # 2)) = true ->
              exists a : answer,
                a ∈ answers /\ Demo.commits !! i = Some a.1
                /\ (a.2 ≠ "" -> commit_chunk a.1 a.2 ∈ [Demo.chunk_a])))
  /\ exists chunks w',
       @retrieveGit Demo.host Demo.git (Demo.term "login bug")
         (Some (Js.Finite (1 # 2))) Demo.w0 = (Ok chunks, w').
Proof.
  destruct (retrieveGit_threshold_strict (H := Demo.host) Demo.git
              (Demo.term "login bug") (Some (Js.Finite (1 # 2))) Demo.commits)
    as (_ & _ & Htie & Hrun & Hreturns).
  split; [reflexivity|]. split; [reflexivity|]. split; [|split].
  - exact (Htie 2%nat (Js.Finite (1 # 2)) eq_refl eq_refl).
  - exact (Hrun Demo.w0 Demo.outside
             (@retrieveGit Demo.host Demo.git (Demo.term "login bug")
                (Some (Js.Finite (1 # 2))) Demo.w0).2
             [Demo.chunk_a] eq_refl eq_refl).
  - refine (Hreturns Demo.w0 Demo.outside eq_refl eq_refl _).
    intros hash e0. by eexists _, _.
Defined.

(** The commits [a] and [d] tie at the top and stay in the order of their
    indices; [c] comes last, and the cap of 2 leaves it out. *)
Lemma retrieveGit_ranked_witness :
  passing_indexes Demo.scores (Js.Finite (3 # 10)) = [0; 3; 2]
  /\ (Js.ge (Js.at_number Demo.scores 0) (Js.at_number Demo.scores 3) = true
      /\ (Js.eq (Js.at_number Demo.scores 0) (Js.at_number Demo.scores 3) = true
          -> 0 < 3))
  /\ exists answers : list answer,
       trace (@retrieveGit Demo.host Demo.git (Demo.term "login bug")
                (Some (Js.Finite (3 # 10))) Demo.w0).2
       = trace Demo.w0 ++ GetHistoryCommits (Ok Demo.commits)
                          :: map fetch_event answers
       /\ Forall2 (fun index a => commits_at Demo.commits index = Some a.1)
            [0; 3] answers.
Proof.
  destruct (retrieveGit_ranked (H := Demo.host) Demo.git
              (Demo.term "login bug") (Some (Js.Finite (3 # 10))) Demo.commits)
    as (Hranked & _ & Hrun).
  split; [reflexivity|]. split.
  - exact (Hranked 0%nat 1%nat 0 3 (Nat.lt_0_succ 0) eq_refl eq_refl).
  - exact (Hrun Demo.w0 Demo.outside _ [Demo.chunk_a] eq_refl eq_refl).
Defined.

(** The window is [a], [d]; the diff of [d] is empty: one chunk for a cap
    of 2, and [c], next in the ranking, is not fetched. *)
Lemma retrieveGit_empty_diff_skipped_witness :
  exists (commits : list Commit.t) (answers : list answer),
    trace (@retrieveGit Demo.host Demo.git (Demo.term "login bug")
             (Some (Js.Finite (3 # 10))) Demo.w0).2
    = trace Demo.w0 ++ GetHistoryCommits (Ok commits) :: map fetch_event answers
    /\ Forall2 (fun index a => commits_at commits index = Some a.1)
         (Js.slice0
            (passing_indexes
               (@tfidf_search Demo.host (map Commit.message commits) "login bug")
               (Js.Finite (3 # 10)))
            2)
         answers
    /\ [Demo.chunk_a] = flat_map chunks_of_answer answers
    /\ (forall a, a.2 = "" -> chunks_of_answer a = [])
    /\ (forall chunk, chunk ∈ [Demo.chunk_a] ->
          exists a, a ∈ answers /\ a.2 ≠ "" /\ chunk = commit_chunk a.1 a.2)
    /\ (length [Demo.chunk_a] + length (List.filter empty_diff answers)
        = length
            (Js.slice0
               (passing_indexes
                  (@tfidf_search Demo.host (map Commit.message commits) "login bug")
                  (Js.Finite (3 # 10)))
               2))%nat
    /\ (forall a, a ∈ answers -> a.2 = "" ->
          (length [Demo.chunk_a]
           < length
               (Js.slice0
                  (passing_indexes
                     (@tfidf_search Demo.host (map Commit.message commits)
                        "login bug")
                     (Js.Finite (3 # 10)))
                  2))%nat).
Proof.
  exact (retrieveGit_empty_diff_skipped (H := Demo.host) Demo.git
           (Demo.term "login bug") (Some (Js.Finite (3 # 10))) Demo.w0 _
           [Demo.chunk_a] eq_refl).
Defined.

(** The repository cannot show [d], the second commit of the window: the
    run throws what [getChangeByHash] threw.  The folder is no repository:
    the run throws what [getHistoryCommits] threw. *)
Lemma retrieveGit_propagates_witness :
  (exists calls,
     trace (@retrieveGit Demo.host Demo.git_no_diff (Demo.term "login bug")
              None Demo.w0).2
     = trace Demo.w0 ++ calls
     /\ forall ev e, ev ∈ calls -> git_raised ev e ->
          (Throw (Error "bad object d") : outcome (list Chunk.t)) = Throw e
          /\ forall chunks : list Chunk.t, Throw (Error "bad object d") ≠ Ok chunks)
  /\ (Throw (Error "not a git repository") : outcome (list Chunk.t))
     = Throw (Error "not a git repository")
  /\ trace (@retrieveGit Demo.host Demo.git_no_history (Demo.term "login bug")
              None Demo.w0).2
     = trace Demo.w0 ++ [GetHistoryCommits (Throw (Error "not a git repository"))]
  /\ env (@retrieveGit Demo.host Demo.git_no_history (Demo.term "login bug")
            None Demo.w0).2
     = Demo.outside.
Proof.
  split.
  - exact (proj2 (retrieveGit_propagates (H := Demo.host) Demo.git_no_diff
                    (Demo.term "login bug") None Demo.w0 _
                    (Throw (Error "bad object d")) eq_refl)).
  - exact (proj1 (retrieveGit_propagates (H := Demo.host) Demo.git_no_history
                    (Demo.term "login bug") None Demo.w0 _
                    (Throw (Error "not a git repository")) eq_refl)
             (Error "not a git repository") Demo.outside eq_refl).
Defined.

(** The engine is down: the result is empty and the console has the
    warning. *)
Lemma retrieveFts_fail_soft_witness :
  @retrieveFts Demo.host (Demo.term "login bug") Demo.w_down
  = (Ok [],
     @mkWorld Demo.host None "/home/dev/.autodev/index/autodev-index.sqlite"
       [FtsRetrieve (retrieveFts_args (Demo.term "login bug"))
          (Throw (Error "no such table: fts"));
        ConsoleWarn "Error retrieving from FTS:" (Error "no such table: fts")]
       (Demo.mk_env [] 1 true)).
Proof.
  destruct (retrieveFts_fail_soft (H := Demo.host) (Demo.term "login bug") Demo.w_down)
    as [_ Hthrow].
  refine (Hthrow (Error "no such table: fts") (Demo.mk_env [] 1 true) _ eq_refl).
  discriminate.
Defined.

(** Three spaces. *)
Lemma retrieveFts_blank_query_witness :
  Js.trim "   " = ""
  /\ @retrieveFts Demo.host (Demo.term "   ") Demo.w0 = (Ok [], Demo.w0).
Proof.
  split; [reflexivity|].
  exact (retrieveFts_blank_query (H := Demo.host) (Demo.term "   ") Demo.w0 eq_refl).
Defined.

(** Two words, one space. *)
Lemma retrieveFts_query_pieces_witness :
  exists (r : outcome (list Chunk.t)) (pieces : list string),
    trace (@retrieveFts Demo.host (Demo.term " login bug ") Demo.w0).2
    = trace Demo.w0
      ++ FtsRetrieve (retrieveFts_args (Demo.term " login bug ")) r
         :: match r with
            | Ok _ => []
            | Throw e => [ConsoleWarn "Error retrieving from FTS:" e]
            end
    /\ FtsArgs.text (@retrieveFts_args Demo.host (Demo.term " login bug "))
       = Js.join " OR " (map Js.quoted pieces)
    /\ Js.join " " pieces = Js.trim " login bug "
    /\ Forall (fun piece => occurs " " piece = false) pieces
    /\ (forall words,
          Forall is_word words ->
          Js.trim " login bug " = Js.join " " words ->
          pieces = words
          /\ FtsArgs.text (@retrieveFts_args Demo.host (Demo.term " login bug "))
             = spec_fts_query " login bug ").
Proof.
  refine (retrieveFts_query_pieces (H := Demo.host) (Demo.term " login bug ")
            Demo.w0 _).
  discriminate.
Defined.

(** C6, refuted as stated. Two spaces between [a] and [b] give an empty
    piece between them, and a tab is no separator: in both cases the query
    string handed to the engine is not the one made of the
    whitespace-separated tokens. *)
Lemma retrieveFts_query_not_whitespace_tokens :
  String.eqb (Js.trim "a  b") "" = false
  /\ trace (@retrieveFts Demo.host (Demo.term "a  b") Demo.w0).2
     = [FtsRetrieve (retrieveFts_args (Demo.term "a  b")) (Ok [Demo.found])]
  /\ FtsArgs.text (@retrieveFts_args Demo.host (Demo.term "a  b"))
     = Js.quoted "a" +:+ " OR " +:+ Js.quoted "" +:+ " OR " +:+ Js.quoted "b"
  /\ spec_fts_query "a  b" = Js.quoted "a" +:+ " OR " +:+ Js.quoted "b"
  /\ String.eqb (FtsArgs.text (@retrieveFts_args Demo.host (Demo.term "a  b")))
       (spec_fts_query "a  b") = false
  /\ FtsArgs.text
       (@retrieveFts_args Demo.host (Demo.term (String "a" (String "009" "b"))))
     = Js.quoted (String "a" (String "009" "b"))
  /\ spec_fts_query (String "a" (String "009" "b"))
     = Js.quoted "a" +:+ " OR " +:+ Js.quoted "b".
Proof. repeat split; reflexivity. Defined.

(** A first [get] opens the store and creates the tables; the file now
    exists, and a second [get] returns the same handle and does nothing. *)
Lemma get_cached_or_reopened_witness :
  @get Demo.host Demo.w0
  = (Ok (Some 1%nat),
     @mkWorld Demo.host (Some 1%nat) "/home/dev/.autodev/index/autodev-index.sqlite"
       (@reopen_calls Demo.host "/home/dev/.autodev/index" 1%nat)
       (Demo.mk_env ["/home/dev/.autodev/index/autodev-index.sqlite"] 2 false))
  /\ @get Demo.host (@get Demo.host Demo.w0).2
     = (Ok (Some 1%nat), (@get Demo.host Demo.w0).2).
Proof.
  destruct (get_cached_or_reopened (H := Demo.host) Demo.w0)
    as (_ & Hnext & Hreopen & _).
  split.
  - destruct (Hreopen (or_introl eq_refl)) as [_ Hok].
    exact (Hok "/home/dev/.autodev/index" Demo.outside 1%nat
             (Demo.mk_env ["/home/dev/.autodev/index/autodev-index.sqlite"] 2 false)
             _ _ eq_refl eq_refl eq_refl eq_refl).
  - destruct (Hnext (Some 1%nat) (@get Demo.host Demo.w0).2 eq_refl)
      as (db & Hdb & _ & Hsame).
    injection Hdb as <-.
    exact (Hsame (@get Demo.host Demo.w0).2 eq_refl eq_refl eq_refl).
Defined.

(** * Further properties *)

(** ** [deduplicateArray], for any predicate *)

(** Every item the loop was given is in its result, or has in the result
    an item [equal] to it. *)
Lemma deduplicateArray_loop_covers {T} (equal : T -> T -> bool) (array result : list T)
    (item : T) :
  item ∈ array ->
  item ∈ deduplicateArray_loop equal array result
  \/ exists kept, kept ∈ deduplicateArray_loop equal array result
                  /\ equal kept item = true.
Proof.
  revert result. induction array as [|x rest IH]; intros result Hin;
    [inversion Hin|].
  apply elem_of_cons in Hin as [->|Hin]; [|by apply IH].
  simpl.
  destruct (deduplicateArray_loop_appends equal rest
              (if negb (existsb (fun existingItem => equal existingItem x) result)
               then result ++ [x] else result)) as (later & -> & _).
  destruct (existsb _ result) eqn:Hdup; simpl.
  - right. apply existsb_exists in Hdup as (kept & Hkept & Heq).
    exists kept. split; [|done].
    apply elem_of_app. left. by apply list_elem_of_In.
  - left. rewrite !elem_of_app. left. right. by left.
Qed.

(** An item of the result was in [result] already, or stands in the array
    at a place where nothing kept so far was [equal] to it. *)
Lemma deduplicateArray_loop_origin {T} (equal : T -> T -> bool) (array result : list T)
    (item : T) :
  item ∈ deduplicateArray_loop equal array result ->
  item ∈ result
  \/ exists seen rest,
       array = seen ++ item :: rest
       /\ existsb (fun existingItem => equal existingItem item)
            (deduplicateArray_loop equal seen result) = false.
Proof.
  revert result. induction array as [|x rest IH]; intros result Hin; [by left|].
  simpl in Hin. apply IH in Hin as [Hin|(seen & rest' & -> & Hnew)].
  - destruct (existsb _ result) eqn:Hdup; simpl in Hin; [by left|].
    apply elem_of_app in Hin as [Hin|Hin]; [by left|].
    apply list_elem_of_singleton in Hin as ->.
    right. exists [], rest. by split.
  - right. exists (x :: seen), rest'. by split.
Qed.

Lemma deduplicateArray_loop_again {T} (equal : T -> T -> bool) (array : list T) :
  deduplicateArray_loop equal (deduplicateArray_loop equal array []) []
  = deduplicateArray_loop equal array [].
Proof.
  apply (deduplicateArray_loop_keeps_all equal (deduplicateArray_loop equal array []) []).
  simpl. apply deduplicateArray_loop_no_earlier_equal, no_earlier_equal_nil.
Qed.

(** X1. A second pass of [deduplicateArray] changes nothing, whatever the
    predicate. *)
Theorem deduplicateArray_idempotent {T} (array : list T) (equal : T -> T -> bool) :
  deduplicateArray (deduplicateArray array equal) equal
  = deduplicateArray array equal.
Proof. apply deduplicateArray_loop_again. Qed.

(** X2. [deduplicateArray] returns its argument unchanged exactly when no
    element of the argument is [equal] to a later one (the earlier element
    being the first argument of [equal]). *)
Theorem deduplicateArray_unchanged_iff {T} (array : list T) (equal : T -> T -> bool) :
  deduplicateArray array equal = array
  <-> forall i j a b,
        (i < j)%nat -> array !! i = Some a -> array !! j = Some b ->
        equal a b = false.
Proof.
  split.
  - intros Hfix. rewrite <- Hfix.
    apply (deduplicateArray_loop_no_earlier_equal equal array []),
      no_earlier_equal_nil.
  - intros Hnone.
    apply (deduplicateArray_loop_keeps_all equal array []). exact Hnone.
Qed.

(** X3. Nothing is dropped without a kept item to stand for it: an item of
    the array is in the result, or some item of the result is [equal] to
    it; the first item of the array is always the first of the result, and
    the result is no longer than the array. *)
Theorem deduplicateArray_covers {T} (array : list T) (equal : T -> T -> bool) :
  (forall item, item ∈ array ->
     item ∈ deduplicateArray array equal
     \/ exists kept, kept ∈ deduplicateArray array equal /\ equal kept item = true)
  /\ (forall first rest,
        array = first :: rest ->
        exists kept, deduplicateArray array equal = first :: kept)
  /\ (length (deduplicateArray array equal) <= length array)%nat.
Proof.
  split; [|split].
  - intros item. apply deduplicateArray_loop_covers.
  - intros first rest ->. unfold deduplicateArray. simpl.
    destruct (deduplicateArray_loop_appends equal rest [first]) as (kept & -> & _).
    by exists kept.
  - unfold deduplicateArray.
    destruct (deduplicateArray_loop_appends equal array []) as (kept & -> & Hsub).
    simpl. by apply sublist_length.
Qed.

(** X4. Merging in steps: what was kept out of [xs] stays in front when
    [ys] is appended, and deduplicating [xs ++ ys] is deduplicating [ys]
    appended to the deduplicated [xs]. *)
Theorem deduplicateArray_app {T} (xs ys : list T) (equal : T -> T -> bool) :
  deduplicateArray xs equal `prefix_of` deduplicateArray (xs ++ ys) equal
  /\ deduplicateArray (xs ++ ys) equal
     = deduplicateArray (deduplicateArray xs equal ++ ys) equal.
Proof.
  unfold deduplicateArray. rewrite !deduplicateArray_loop_app. split.
  - destruct (deduplicateArray_loop_appends equal ys
                (deduplicateArray_loop equal xs [])) as (kept & -> & _).
    by exists kept.
  - f_equal. symmetry. apply deduplicateArray_loop_again.
Qed.

(** ** [deduplicateChunks] *)

Lemma same_chunk_key (a b : Chunk.t) :
  same_chunk a b = true <-> chunk_key a = chunk_key b.
Proof.
  rewrite same_chunk_true. unfold chunk_key. split.
  - intros (-> & -> & ->). done.
  - intros Hkey. by injection Hkey.
Qed.

Lemma existsb_same_chunk (chunk : Chunk.t) (kept : list Chunk.t) :
  existsb (fun existingItem => same_chunk existingItem chunk) kept = true
  <-> chunk_key chunk ∈ map chunk_key kept.
Proof.
  rewrite existsb_exists, list_elem_of_fmap. split.
  - intros (x & Hx & Hsame). exists x.
    split; [symmetry; by apply same_chunk_key | by apply list_elem_of_In].
  - intros (x & Hkey & Hx). exists x.
    split; [by apply list_elem_of_In | by apply same_chunk_key].
Qed.

(** The keys of the result are the keys of the array. *)
Lemma deduplicateChunks_keys (xs : list Chunk.t) (key : string * Z * Z) :
  key ∈ map chunk_key (deduplicateChunks xs) <-> key ∈ map chunk_key xs.
Proof.
  rewrite !list_elem_of_fmap. split.
  - intros (chunk & -> & Hchunk). exists chunk. split; [done|].
    eapply elem_of_sublist; [exact Hchunk|].
    unfold deduplicateChunks, deduplicateArray.
    destruct (deduplicateArray_loop_appends same_chunk xs []) as (kept & -> & Hsub).
    done.
  - intros (chunk & -> & Hchunk).
    destruct (deduplicateArray_loop_covers same_chunk xs [] chunk Hchunk)
      as [Hkept|(kept & Hkept & Hsame)].
    + by exists chunk.
    + exists kept. split; [symmetry; by apply same_chunk_key | done].
Qed.

(** X5. [deduplicateChunks] keeps one chunk for each key (filepath,
    startLine, endLine) of its argument, and the chunk it keeps is the
    first of the argument with that key: the digest and the content of the
    later ones are lost. *)
Theorem deduplicateChunks_first_of_key (xs : list Chunk.t) :
  NoDup (map chunk_key (deduplicateChunks xs))
  /\ (forall key,
        key ∈ map chunk_key (deduplicateChunks xs) <-> key ∈ map chunk_key xs)
  /\ (forall chunk,
        chunk ∈ deduplicateChunks xs ->
        exists seen rest,
          xs = seen ++ chunk :: rest
          /\ chunk_key chunk ∉ map chunk_key seen).
Proof.
  split; [|split].
  - pose proof (deduplicateArray_loop_no_earlier_equal same_chunk xs []
                  (no_earlier_equal_nil same_chunk)) as Hnone.
    fold (deduplicateArray xs same_chunk) in Hnone.
    fold (deduplicateChunks xs) in Hnone.
    apply NoDup_alt. intros i j key Hi Hj.
    rewrite list_lookup_fmap in Hi, Hj.
    destruct (deduplicateChunks xs !! i) as [a|] eqn:Ha; [|done].
    destruct (deduplicateChunks xs !! j) as [b|] eqn:Hb; [|done].
    simpl in Hi, Hj. injection Hi as Hi. injection Hj as Hj.
    destruct (Nat.lt_trichotomy i j) as [Hlt|[Heq|Hgt]]; [|done|].
    + pose proof (Hnone i j a b Hlt Ha Hb) as Hne.
      assert (same_chunk a b = true) by (apply same_chunk_key; congruence).
      congruence.
    + pose proof (Hnone j i b a Hgt Hb Ha) as Hne.
      assert (same_chunk b a = true) by (apply same_chunk_key; congruence).
      congruence.
  - apply deduplicateChunks_keys.
  - intros chunk Hchunk.
    apply deduplicateArray_loop_origin in Hchunk
      as [Hnil|(seen & rest & -> & Hnew)]; [inversion Hnil|].
    exists seen, rest. split; [done|].
    intros Hkey. apply (deduplicateChunks_keys seen) in Hkey.
    apply existsb_same_chunk in Hkey.
    unfold deduplicateChunks, deduplicateArray in Hkey. congruence.
Qed.

(** ** [retrieveGit]: cost, edges and failures *)

(** Whatever its outcome, the loop leaves the static fields alone, adds
    only calls to [getChangeByHash], at most one per index, and throws
    only what such a call threw, or the [TypeError] of an index without a
    commit. *)
Lemma retrieveGit_loop_calls `{Host} (git : GitAction) (commits : list Commit.t)
    (indexes : list Z) (chunks : list Chunk.t) (r : outcome (list Chunk.t))
    (w w' : World) :
  retrieveGit_loop git commits indexes chunks w = (r, w') ->
  exists calls,
    trace w' = trace w ++ calls
    /\ Forall is_diff_call calls
    /\ (length calls <= length indexes)%nat
    /\ SqliteDb_db w' = SqliteDb_db w
    /\ SqliteDb_indexSqlitePath w' = SqliteDb_indexSqlitePath w
    /\ (forall e, r = Throw e ->
          (exists ev, ev ∈ calls /\ git_raised ev e)
          \/ (e = undefined_commit
              /\ exists index, index ∈ indexes /\ commits_at commits index = None)).
Proof.
  revert chunks w. induction indexes as [|index rest IH]; intros chunks w Hrun;
    simpl in Hrun.
  - injection Hrun as <- <-. exists []. rewrite app_nil_r.
    split; [done|]. split; [constructor|]. split; [simpl; lia|].
    do 2 (split; [done|]). intros e He. discriminate He.
  - assert (Hnext : forall chunks0 w0,
              SqliteDb_db w0 = SqliteDb_db w ->
              SqliteDb_indexSqlitePath w0 = SqliteDb_indexSqlitePath w ->
              forall first, trace w0 = trace w ++ first ->
              Forall is_diff_call first -> (length first <= 1)%nat ->
              retrieveGit_loop git commits rest chunks0 w0 = (r, w') ->
              exists calls,
                trace w' = trace w ++ calls
                /\ Forall is_diff_call calls
                /\ (length calls <= S (length rest))%nat
                /\ SqliteDb_db w' = SqliteDb_db w
                /\ SqliteDb_indexSqlitePath w' = SqliteDb_indexSqlitePath w
                /\ (forall e, r = Throw e ->
                      (exists ev, ev ∈ calls /\ git_raised ev e)
                      \/ (e = undefined_commit
                          /\ exists index0, index0 ∈ index :: rest
                               /\ commits_at commits index0 = None))).
    { intros chunks0 w0 Hdb Hpath first Hfirst Hdiff Hlen Hrest.
      apply IH in Hrest as (calls & Htrace & Hcalls & Hbound & Hdb' & Hpath' & Hthrow).
      exists (first ++ calls). rewrite Htrace, Hfirst, <- app_assoc.
      split; [done|]. split; [by apply Forall_app|].
      split; [rewrite length_app; lia|].
      split; [congruence|]. split; [congruence|].
      intros e He. destruct (Hthrow e He) as [(ev & Hev & Hr)|(-> & i0 & Hi0 & Hnone)].
      - left. exists ev. split; [apply elem_of_app; by right | done].
      - right. split; [done|]. exists i0. split; [by right | done]. }
    destruct (index =? -1).
    { refine (Hnext chunks w eq_refl eq_refl [] _ _ _ Hrun);
        [by rewrite app_nil_r | constructor | simpl; lia]. }
    destruct (commits_at commits index) as [commit|] eqn:Hcommit.
    2:{ injection Hrun as <- <-. exists []. rewrite app_nil_r.
        split; [done|]. split; [constructor|]. split; [simpl; lia|].
        do 2 (split; [done|]).
        intros e He. injection He as <-. right. split; [done|].
        exists index. split; [by left | done]. }
    rewrite bind_run in Hrun. unfold getChangeByHash in Hrun.
    rewrite call_run in Hrun.
    destruct (git_getChangeByHash git (Commit.hash commit) (env w))
      as [[changes|e0] env'] eqn:Hdiff; simpl in Hrun.
    + assert (Hcall : Forall is_diff_call
                        [GetChangeByHash (Commit.hash commit) (Ok changes)]).
      { repeat constructor. by eexists _, _. }
      destruct (String.eqb changes "");
        refine (Hnext _ _ _ _ _ _ Hcall _ Hrun); simpl; try done; lia.
    + injection Hrun as <- <-. simpl.
      exists [GetChangeByHash (Commit.hash commit) (Throw e0)].
      split; [done|]. split; [repeat constructor; by eexists _, _|].
      split; [simpl; lia|]. do 2 (split; [done|]).
      intros e He. injection He as <-. left.
      exists (GetChangeByHash (Commit.hash commit) (Throw e0)).
      split; [by left | right; by eexists].
Qed.

(** The array after [map] and [filter] has one index for each score above
    the threshold. *)
Lemma candidates_length (threshold : Js.number) (results : list Js.number) (off : nat) :
  length (filter (fun index : Z => index ≠ -1)
            (imap (fun index score =>
                     if Js.gt score threshold then Z.of_nat (off + index) else -1)
                  results))
  = length (List.filter (fun score => Js.gt score threshold) results).
Proof.
  revert off. induction results as [|s results IH]; intros off; simpl; [done|].
  rewrite (imap_ext _ (fun index score =>
             if Js.gt score threshold then Z.of_nat (S off + index) else -1))
    by (intros i x _; simpl; by rewrite Nat.add_succ_r).
  destruct (Js.gt s threshold).
  - rewrite filter_cons_True by lia. cbn [length]. f_equal. apply IH.
  - rewrite filter_cons_False by (intros Hne; by apply Hne). apply IH.
Qed.

Lemma passing_indexes_length results threshold :
  length (passing_indexes results threshold)
  = length (List.filter (fun score => Js.gt score threshold) results).
Proof.
  unfold passing_indexes. rewrite sort_Permutation.
  apply (candidates_length threshold results 0).
Qed.

Lemma slice0_length {A} (a : list A) (end_ : Z) :
  length (Js.slice0 a end_)
  = if end_ <? 0 then Z.to_nat (Z.max (Z.of_nat (length a) + end_) 0)
    else Nat.min (Z.to_nat end_) (length a).
Proof.
  unfold Js.slice0. destruct (end_ <? 0) eqn:Hneg; rewrite length_take; [|done].
  apply Z.ltb_lt in Hneg. lia.
Qed.

Lemma length_chunks_le (answers : list answer) :
  (length (flat_map chunks_of_answer answers) <= length answers)%nat.
Proof. pose proof (length_chunks_of_answers answers). lia. Qed.

(** A run of [retrieveGit], whatever its outcome: the static fields are
    left alone; the trace gains the call to [getHistoryCommits], then
    calls to [getChangeByHash], no more than the window has indices; what
    is thrown was thrown by one of these calls, or is the [TypeError] of a
    passing index without a commit. *)
Lemma retrieveGit_any `{Host} (git : GitAction) (term : RetrievalQueryTerm.t Tag)
    (threshold : option Js.number) (w w' : World) (r : outcome (list Chunk.t)) :
  retrieveGit git term threshold w = (r, w') ->
  exists calls,
    trace w' = trace w ++ GetHistoryCommits (git_getHistoryCommits git (env w)).1
                          :: calls
    /\ Forall is_diff_call calls
    /\ SqliteDb_db w' = SqliteDb_db w
    /\ SqliteDb_indexSqlitePath w' = SqliteDb_indexSqlitePath w
    /\ match (git_getHistoryCommits git (env w)).1 with
       | Throw e => calls = [] /\ r = Throw e
       | Ok commits =>
           let results :=
             tfidf_search (map Commit.message commits)
               (RetrievalQueryTerm.query term) in
           let indexes := passing_indexes results (default Js.lit_0_6 threshold) in
           let window := Js.slice0 indexes (RetrievalQueryTerm.n term) in
           (length calls <= length window)%nat
           /\ forall e, r = Throw e ->
                (exists ev, ev ∈ calls /\ git_raised ev e)
                \/ (e = undefined_commit
                    /\ exists index, index ∈ window
                                     /\ commits_at commits index = None)
       end.
Proof.
  unfold retrieveGit. rewrite bind_run. unfold getHistoryCommits. rewrite call_run.
  destruct (git_getHistoryCommits git (env w)) as [[commits|e0] env1]; simpl.
  - set (results := tfidf_search _ _).
    set (indexes := passing_indexes results _).
    destruct (length indexes =? 0)%nat eqn:Hlen.
    + intros Hrun. injection Hrun as <- <-. exists []. simpl.
      split; [done|]. split; [constructor|]. do 2 (split; [done|]).
      split; [lia | intros e He; discriminate He].
    + intros Hrun.
      apply retrieveGit_loop_calls in Hrun
        as (calls & Htrace & Hcalls & Hbound & Hdb & Hpath & Hthrow).
      simpl in *. exists calls. rewrite Htrace, <- app_assoc.
      split; [done|]. split; [done|]. do 2 (split; [done|]).
      split; [done | exact Hthrow].
  - intros Hrun. injection Hrun as <- <-. exists []. simpl.
    split; [done|]. split; [constructor|]. do 2 (split; [done|]). done.
Qed.

(** X6. With a cap [n] that is not negative, a run of [retrieveGit],
    whether it returns or throws, makes one call to [getHistoryCommits]
    and then at most [n] calls to [getChangeByHash], and nothing else; a
    run that returns gives at most [n] chunks. *)
Theorem retrieveGit_cap `{Host} (git : GitAction) (term : RetrievalQueryTerm.t Tag)
    (threshold : option Js.number) (w w' : World) (r : outcome (list Chunk.t)) :
  retrieveGit git term threshold w = (r, w') ->
  0 <= RetrievalQueryTerm.n term ->
  exists calls,
    trace w' = trace w ++ GetHistoryCommits (git_getHistoryCommits git (env w)).1
                          :: calls
    /\ Forall is_diff_call calls
    /\ Z.of_nat (length calls) <= RetrievalQueryTerm.n term
    /\ forall chunks, r = Ok chunks ->
         Z.of_nat (length chunks) <= RetrievalQueryTerm.n term.
Proof.
  intros Hrun Hn.
  assert (Hwindow : forall indexes : list Z,
            Z.of_nat (length (Js.slice0 indexes (RetrievalQueryTerm.n term)))
            <= RetrievalQueryTerm.n term).
  { intros indexes. rewrite slice0_length.
    replace (RetrievalQueryTerm.n term <? 0) with false
      by (symmetry; apply Z.ltb_ge; lia).
    lia. }
  destruct (retrieveGit_any git term threshold w w' r Hrun)
    as (calls & Htrace & Hcalls & _ & _ & Hcase).
  exists calls. split; [done|]. split; [done|]. split.
  - destruct (git_getHistoryCommits git (env w)).1 as [commits|e].
    + destruct Hcase as [Hbound _]. cbv zeta in Hbound.
      specialize (Hwindow
        (passing_indexes
           (tfidf_search (map Commit.message commits) (RetrievalQueryTerm.query term))
           (default Js.lit_0_6 threshold))).
      lia.
    + destruct Hcase as [-> _]. simpl. lia.
  - intros chunks ->.
    apply retrieveGit_ok in Hrun as (commits & answers & _ & _ & Hanswers & ->).
    apply Forall2_length in Hanswers.
    pose proof (length_chunks_le answers) as Hle.
    specialize (Hwindow
      (passing_indexes
         (tfidf_search (map Commit.message commits) (RetrievalQueryTerm.query term))
         (default Js.lit_0_6 threshold))).
    cbv zeta in Hanswers. unfold answer in *. lia.
Qed.

(** X7. The number of diffs a returning run fetches: with [above] the
    number of scores strictly above the threshold, it is the smaller of
    [n] and [above] when [n] is not negative; a negative [n] does not
    empty the result, it takes [-n] commits off the end of the ranking:
    [above + n] diffs are fetched, or none when that is negative. *)
Theorem retrieveGit_fetch_count `{Host} (git : GitAction)
    (term : RetrievalQueryTerm.t Tag) (threshold : option Js.number)
    (w w' : World) (chunks : list Chunk.t) :
  retrieveGit git term threshold w = (Ok chunks, w') ->
  exists (commits : list Commit.t) (answers : list answer),
    let results :=
      tfidf_search (map Commit.message commits) (RetrievalQueryTerm.query term) in
    let above :=
      length (List.filter
                (fun score => Js.gt score (default Js.lit_0_6 threshold)) results) in
    trace w' = trace w ++ GetHistoryCommits (Ok commits) :: map fetch_event answers
    /\ length answers
       = if RetrievalQueryTerm.n term <? 0
         then Z.to_nat (Z.max (Z.of_nat above + RetrievalQueryTerm.n term) 0)
         else Nat.min (Z.to_nat (RetrievalQueryTerm.n term)) above.
Proof.
  intros Hrun.
  apply retrieveGit_ok in Hrun as (commits & answers & _ & Htrace & Hanswers & _).
  exists commits, answers. cbv zeta. split; [done|].
  apply Forall2_length in Hanswers. cbv zeta in Hanswers.
  unfold answer in *.
  rewrite <- Hanswers, slice0_length, passing_indexes_length. done.
Qed.

(** X8. When no score is strictly above the threshold, or when the cap is
    0, [retrieveGit] returns the empty array after the one call to
    [getHistoryCommits]: no diff is fetched. *)
Theorem retrieveGit_nothing_to_fetch `{Host} (git : GitAction)
    (term : RetrievalQueryTerm.t Tag) (threshold : option Js.number)
    (w : World) (commits : list Commit.t) (env1 : Env) :
  git_getHistoryCommits git (env w) = (Ok commits, env1) ->
  (forall score,
     score ∈ tfidf_search (map Commit.message commits)
               (RetrievalQueryTerm.query term) ->
     Js.gt score (default Js.lit_0_6 threshold) = false)
  \/ RetrievalQueryTerm.n term = 0 ->
  retrieveGit git term threshold w
  = (Ok [],
     mkWorld (SqliteDb_db w) (SqliteDb_indexSqlitePath w)
       (trace w ++ [GetHistoryCommits (Ok commits)]) env1).
Proof.
  intros Hhistory Hcase.
  unfold retrieveGit. rewrite bind_run. unfold getHistoryCommits.
  rewrite call_run, Hhistory. simpl.
  set (results := tfidf_search _ _).
  set (indexes := passing_indexes results _).
  destruct (length indexes =? 0)%nat eqn:Hlen; [done|].
  destruct Hcase as [Hnone| ->].
  - exfalso. apply Nat.eqb_neq in Hlen. apply Hlen.
    unfold indexes. rewrite passing_indexes_length.
    fold results in Hnone.
    clear -Hnone. induction results as [|s results IH]; simpl; [done|].
    rewrite (Hnone s) by (by left). apply IH. intros s' Hs'. apply Hnone. by right.
  - done.
Qed.

(** X9. Every chunk [retrieveGit] returns stands for a whole commit: its
    language is empty, its lines and index are 0, its digest and filepath
    are the same hash, and its content is the non-empty answer
    [getChangeByHash] gave for that hash during the run. *)
Theorem retrieveGit_chunk_shape `{Host} (git : GitAction)
    (term : RetrievalQueryTerm.t Tag) (threshold : option Js.number)
    (w w' : World) (chunks : list Chunk.t) :
  retrieveGit git term threshold w = (Ok chunks, w') ->
  forall chunk, chunk ∈ chunks ->
    Chunk.language chunk = ""
    /\ Chunk.digest chunk = Chunk.filepath chunk
    /\ Chunk.startLine chunk = 0
    /\ Chunk.endLine chunk = 0
    /\ Chunk.index chunk = 0
    /\ Chunk.content chunk ≠ ""
    /\ GetChangeByHash (Chunk.filepath chunk) (Ok (Chunk.content chunk)) ∈ trace w'.
Proof.
  intros Hrun chunk Hchunk.
  apply retrieveGit_ok in Hrun as (commits & answers & _ & Htrace & _ & ->).
  apply elem_of_chunks_of_answers in Hchunk as (a & Ha & Hne & ->). simpl.
  repeat split; try done.
  rewrite Htrace, elem_of_app, elem_of_cons. right. right.
  apply list_elem_of_fmap. by exists a.
Qed.

(** X10. What a run of [retrieveGit] throws was thrown by one of its
    calls to the source control, or is the [TypeError] of reading the hash
    of a commit that is not there, which needs a score above the
    threshold at an index past the last commit.  When the scorer gives one
    score for each document, only the first case is left. *)
Theorem retrieveGit_throws_only `{Host} (git : GitAction)
    (term : RetrievalQueryTerm.t Tag) (threshold : option Js.number)
    (w w' : World) (e : exn) :
  retrieveGit git term threshold w = (Throw e, w') ->
  exists calls,
    trace w' = trace w ++ calls
    /\ ((exists ev, ev ∈ calls /\ git_raised ev e)
        \/ (e = undefined_commit
            /\ exists commits i score,
                 (git_getHistoryCommits git (env w)).1 = Ok commits
                 /\ tfidf_search (map Commit.message commits)
                      (RetrievalQueryTerm.query term) !! i = Some score
                 /\ Js.gt score (default Js.lit_0_6 threshold) = true
                 /\ (length commits <= i)%nat))
    /\ ((forall docs query, length (tfidf_search docs query) = length docs) ->
        exists ev, ev ∈ calls /\ git_raised ev e).
Proof.
  intros Hrun.
  destruct (retrieveGit_any git term threshold w w' _ Hrun)
    as (calls & Htrace & _ & _ & _ & Hcase).
  exists (GetHistoryCommits (git_getHistoryCommits git (env w)).1 :: calls).
  split; [done|].
  destruct (git_getHistoryCommits git (env w)).1 as [commits|e0].
  - destruct Hcase as [_ Hthrow]. cbv zeta in Hthrow.
    destruct (Hthrow e eq_refl) as [(ev & Hev & Hr)|(-> & index & Hindex & Hnone)].
    + assert (exists ev0, ev0 ∈ GetHistoryCommits (Ok commits) :: calls
                          /\ git_raised ev0 e) as Hgit.
      { exists ev. split; [by right | done]. }
      split; [by left | by intros _].
    + eapply elem_of_prefix in Hindex; [|apply slice0_prefix].
      apply passing_indexes_elem_of in Hindex as (i & score & -> & Hi & Hgt).
      rewrite commits_at_of_nat in Hnone. apply lookup_ge_None in Hnone.
      split.
      * right. split; [done|]. by exists commits, i, score.
      * intros Hcontract. exfalso.
        apply lookup_lt_Some in Hi. rewrite Hcontract, length_map in Hi. lia.
  - destruct Hcase as [_ Hr]. injection Hr as ->.
    assert (exists ev0, ev0 ∈ GetHistoryCommits (Throw e0) :: calls
                        /\ git_raised ev0 e0) as Hgit.
    { exists (GetHistoryCommits (Throw e0)). split; [by left | by left]. }
    split; [by left | by intros _].
Qed.

(** ** The threshold *)

Lemma gt_ge_trans x y z : Js.gt x y = true -> Js.ge y z = true -> Js.gt x z = true.
Proof.
  destruct x as [| |p|], y as [| |q|], z as [| |r|]; simpl; try done.
  rewrite !negb_true_iff, Qle_bool_iff. intros Hpq Hrq.
  destruct (Qle_bool p r) eqn:Hpr; [|done].
  apply Qle_bool_iff in Hpr.
  assert (p <= q)%Q as Hle by lra. apply Qle_bool_iff in Hle. congruence.
Qed.

Lemma StronglySorted_filter {A} (R : A -> A -> Prop) (P : A -> Prop)
    `{!forall x, Decision (P x)} (l : list A) :
  StronglySorted R l -> StronglySorted R (filter P l).
Proof.
  induction 1 as [|x l Hsorted IH Hx]; [constructor|].
  rewrite filter_cons. destruct (decide (P x)); [|done].
  constructor; [done|].
  apply Forall_forall. intros y Hy. apply list_elem_of_filter in Hy as [_ Hy].
  rewrite Forall_forall in Hx. by apply Hx.
Qed.

(** X11. Raising the threshold removes commits and moves none: the
    indices kept for a threshold [t2] that is at least [t1] are the indices
    kept for [t1], in the same order, less those whose score is not above
    [t2]. *)
Theorem passing_indexes_raise (results : list Js.number) (t1 t2 : Js.number) :
  Js.ge t2 t1 = true ->
  passing_indexes results t2
  = filter (fun k => Js.gt (Js.at_number results k) t2 = true)
      (passing_indexes results t1).
Proof.
  intros Hge. symmetry. apply passing_indexes_unique.
  - apply NoDup_Permutation.
    + apply NoDup_filter, passing_indexes_NoDup.
    + apply passing_indexes_NoDup.
    + intros k. rewrite list_elem_of_filter, !passing_indexes_elem_of. split.
      * intros [Hgt (i & s & -> & Hi & _)]. exists i, s.
        split; [done|]. split; [done|].
        unfold Js.at_number in Hgt.
        replace (Z.of_nat i <? 0) with false in Hgt
          by (symmetry; apply Z.ltb_ge; lia).
        by rewrite Nat2Z.id, Hi in Hgt.
      * intros Hpass. split; [by apply passes_score|].
        destruct Hpass as (i & s & -> & Hi & Hgt). exists i, s.
        split; [done|]. split; [done|]. by eapply gt_ge_trans.
  - apply StronglySorted_filter, passing_indexes_ranked.
Qed.

(** ** [retrieveGit], then [deduplicateChunks] *)

(** Chunks with different keys are all kept. *)
Lemma deduplicateChunks_NoDup_keys (chunks : list Chunk.t) :
  NoDup (map chunk_key chunks) -> deduplicateChunks chunks = chunks.
Proof.
  intros Hkeys.
  apply (deduplicateArray_loop_keeps_all same_chunk chunks []). simpl.
  intros i j a b Hij Ha Hb.
  destruct (same_chunk a b) eqn:Hsame; [|done].
  apply same_chunk_key in Hsame.
  assert (i = j); [|lia].
  apply (proj1 (NoDup_alt _) Hkeys i j (chunk_key a));
    rewrite list_lookup_fmap; [by rewrite Ha | by rewrite Hb, Hsame].
Qed.

Lemma chunk_keys_of_answers (answers : list answer) :
  map chunk_key (flat_map chunks_of_answer answers)
  `sublist_of` map (fun a : answer => (Commit.hash a.1, 0, 0)) answers.
Proof.
  induction answers as [|a answers IH]; simpl; [done|].
  unfold chunks_of_answer at 1. destruct (String.eqb a.2 ""); simpl.
  - by apply sublist_cons.
  - by apply sublist_skip.
Qed.

(** X12. When the commits of the history have different hashes, the
    chunks [retrieveGit] returns have different keys, and
    [deduplicateChunks] returns them all, in the same order. *)
Theorem retrieveGit_deduplicateChunks `{Host} (git : GitAction)
    (term : RetrievalQueryTerm.t Tag) (threshold : option Js.number)
    (w w' : World) (chunks : list Chunk.t) :
  retrieveGit git term threshold w = (Ok chunks, w') ->
  (forall commits,
     (git_getHistoryCommits git (env w)).1 = Ok commits ->
     NoDup (map Commit.hash commits)) ->
  NoDup (map chunk_key chunks) /\ deduplicateChunks chunks = chunks.
Proof.
  intros Hrun Hhashes.
  apply retrieveGit_ok in Hrun as (commits & answers & Hcommits & _ & Hanswers & ->).
  specialize (Hhashes commits Hcommits). cbv zeta in Hanswers.
  set (window := Js.slice0 _ _) in Hanswers.
  assert (Hwindow : NoDup window).
  { destruct (slice0_prefix
                (passing_indexes
                   (tfidf_search (map Commit.message commits)
                      (RetrievalQueryTerm.query term))
                   (default Js.lit_0_6 threshold))
                (RetrievalQueryTerm.n term)) as [rest Hrest].
    fold window in Hrest.
    pose proof (passing_indexes_NoDup
                  (tfidf_search (map Commit.message commits)
                     (RetrievalQueryTerm.query term))
                  (default Js.lit_0_6 threshold)) as Hnodup.
    rewrite Hrest in Hnodup. by apply NoDup_app in Hnodup as [? _]. }
  assert (Hkeys : NoDup (map chunk_key (flat_map chunks_of_answer answers))).
  { eapply sublist_NoDup; [|apply chunk_keys_of_answers].
    apply NoDup_alt. intros p q key Hp Hq.
    rewrite list_lookup_fmap in Hp, Hq.
    destruct (answers !! p) as [a|] eqn:Ha; [|done].
    destruct (answers !! q) as [b|] eqn:Hb; [|done].
    simpl in Hp, Hq. injection Hp as Hp. rewrite <- Hp in Hq. injection Hq as Hq.
    destruct (Forall2_lookup_r _ _ _ _ _ Hanswers Ha) as (ia & Hia & Hca).
    destruct (Forall2_lookup_r _ _ _ _ _ Hanswers Hb) as (ib & Hib & Hcb).
    assert (ia = ib) as Heq.
    { unfold commits_at in Hca, Hcb.
      destruct (ia <? 0) eqn:Hna; [done|]. destruct (ib <? 0) eqn:Hnb; [done|].
      apply Z.ltb_ge in Hna, Hnb.
      assert (Z.to_nat ia = Z.to_nat ib); [|lia].
      apply (proj1 (NoDup_alt _) Hhashes _ _ (Commit.hash a.1));
        rewrite list_lookup_fmap; [by rewrite Hca | rewrite Hcb; simpl; by rewrite Hq]. }
    subst ib. exact (proj1 (NoDup_alt _) Hwindow p q ia Hia Hib). }
  split; [done | by apply deduplicateChunks_NoDup_keys].
Qed.

(** ** [retrieveFts]: what counts as an empty query *)

Lemma trimStart_blank (s : string) : blank s = true -> Js.trimStart s = "".
Proof.
  induction s as [|c s IH]; simpl; [done|].
  intros Hblank. apply andb_true_iff in Hblank as [-> Hs]. by apply IH.
Qed.

Lemma blank_trimStart (s : string) : blank (Js.trimStart s) = blank s.
Proof.
  induction s as [|c s IH]; simpl; [done|].
  destruct (Js.is_white_space c) eqn:Hc; simpl; [done | by rewrite Hc].
Qed.

Lemma trimEnd_empty (s : string) : Js.trimEnd s = "" <-> blank s = true.
Proof.
  induction s as [|c s IH]; simpl; [done|].
  destruct (Js.trimEnd s) as [|c' t] eqn:Hend.
  - destruct (Js.is_white_space c); simpl; [|done].
    split; [intros _; by apply IH | done].
  - split; [done|]. intros Hblank. apply andb_true_iff in Hblank as [_ Hs].
    by apply IH in Hs.
Qed.

Lemma trim_empty (s : string) : Js.trim s = "" <-> blank s = true.
Proof. unfold Js.trim. by rewrite trimEnd_empty, blank_trimStart. Qed.

(** X13. [retrieveFts] calls the engine exactly when the query holds a
    code unit that is not white space: a query of spaces, tabs, line ends
    or no-break spaces only is answered with the empty array and no call,
    and any other query makes one call. *)
Theorem retrieveFts_calls_engine_iff `{Host} (term : RetrievalQueryTerm.t Tag)
    (w : World) :
  (blank (RetrievalQueryTerm.query term) = true ->
   retrieveFts term w = (Ok [], w))
  /\ (blank (RetrievalQueryTerm.query term) = false ->
      exists r,
        trace (retrieveFts term w).2
        = trace w ++ FtsRetrieve (retrieveFts_args term) r
                     :: match r with
                        | Ok _ => []
                        | Throw e => [ConsoleWarn "Error retrieving from FTS:" e]
                        end).
Proof.
  rewrite retrieveFts_run. split.
  - intros Hblank. apply trim_empty in Hblank. by rewrite Hblank.
  - intros Hblank.
    destruct (String.eqb (Js.trim (RetrievalQueryTerm.query term)) "") eqn:Htrim.
    + apply String.eqb_eq, trim_empty in Htrim. congruence.
    + exists (fts_retrieve (retrieveFts_args term) (env w)).1.
      by destruct (fts_retrieve _ _) as [[chunks|e] env'].
Qed.

Lemma trimStart_app_blank (pad s : string) :
  blank pad = true -> Js.trimStart (pad +:+ s) = Js.trimStart s.
Proof.
  induction pad as [|c pad IH]; [done|]. rewrite append_cons. simpl.
  intros Hblank. apply andb_true_iff in Hblank as [-> Hpad]. by apply IH.
Qed.

Lemma trimEnd_app_blank (s pad : string) :
  blank pad = true -> Js.trimEnd (s +:+ pad) = Js.trimEnd s.
Proof.
  intros Hpad. induction s as [|c s IH].
  - rewrite append_nil_l. by apply trimEnd_empty.
  - rewrite append_cons. simpl. by rewrite IH.
Qed.

Lemma trimStart_app_not_blank (s pad : string) :
  blank s = false -> Js.trimStart (s +:+ pad) = Js.trimStart s +:+ pad.
Proof.
  induction s as [|c s IH]; [done|]. rewrite append_cons. simpl.
  destruct (Js.is_white_space c); simpl; [exact IH | by rewrite append_cons].
Qed.

Lemma trim_padded (pad1 s pad2 : string) :
  blank pad1 = true -> blank pad2 = true ->
  Js.trim (pad1 +:+ s +:+ pad2) = Js.trim s.
Proof.
  intros Hpad1 Hpad2. unfold Js.trim.
  rewrite trimStart_app_blank by done.
  destruct (blank s) eqn:Hs.
  - rewrite (trimStart_blank s Hs).
    apply trimEnd_empty. rewrite blank_trimStart.
    clear -Hs Hpad2. induction s as [|c s IH]; [done|].
    rewrite append_cons. simpl in *.
    apply andb_true_iff in Hs as [-> Hs]. by apply IH.
  - rewrite trimStart_app_not_blank by done. by apply trimEnd_app_blank.
Qed.

Lemma fts_query_padded (pad1 query pad2 : string) :
  blank pad1 = true -> blank pad2 = true ->
  fts_query (pad1 +:+ query +:+ pad2) = fts_query query.
Proof. intros Hpad1 Hpad2. unfold fts_query. by rewrite trim_padded. Qed.

(** X14. White space around the query does not reach the engine: with
    white space only in [pad1] and [pad2], [retrieveFts] does on the query
    [pad1 + query + pad2] what it does on [query], call and result. *)
Theorem retrieveFts_padded `{Host} (pad1 query pad2 : string) (tags : list Tag)
    (n : Z) (filterDirectory language : option string) (w : World) :
  blank pad1 = true -> blank pad2 = true ->
  retrieveFts
    (RetrievalQueryTerm.mk (pad1 +:+ query +:+ pad2) tags n filterDirectory language) w
  = retrieveFts (RetrievalQueryTerm.mk query tags n filterDirectory language) w.
Proof.
  intros Hpad1 Hpad2. rewrite !retrieveFts_run. unfold retrieveFts_args. simpl.
  by rewrite trim_padded, fts_query_padded.
Qed.

(** ** [SqliteDb.get]: what a failure leaves behind *)

(** X15. The handle is stored before the tables are created: when the
    store opens and one of the two [CREATE TABLE] statements throws, [get]
    throws that exception with the new handle already in [SqliteDb.db];
    the next [get], the file being there, returns this handle and creates
    no table. *)
Theorem get_tables_failed_handle_kept `{Host} (w : World) (folder : string)
    (db : DatabaseConnection) (e : exn) (env1 env2 env3 env4 : Env) :
  SqliteDb_db w = None
  \/ fs_existsSync (SqliteDb_indexSqlitePath w) (env w) = false ->
  getIndexFolderPath (env w) = (Ok folder, env1) ->
  sqlite_open (path_join folder "autodev-index.sqlite") env1 = (Ok db, env2) ->
  db_exec db sql_tag_catalog env2 = (Throw e, env4)
  \/ (db_exec db sql_tag_catalog env2 = (Ok tt, env3)
      /\ db_exec db sql_global_cache env3 = (Throw e, env4)) ->
  exists w',
    get w = (Throw e, w')
    /\ SqliteDb_db w' = Some db
    /\ SqliteDb_indexSqlitePath w' = path_join folder "autodev-index.sqlite"
    /\ env w' = env4
    /\ forall w2,
         SqliteDb_db w2 = SqliteDb_db w' ->
         SqliteDb_indexSqlitePath w2 = SqliteDb_indexSqlitePath w' ->
         fs_existsSync (SqliteDb_indexSqlitePath w2) (env w2) = true ->
         get w2 = (Ok (Some db), w2).
Proof.
  intros Hcond Hfolder Hopen Htables.
  assert (Hget : get w = reopen w).
  { rewrite get_run. destruct Hcond as [->|Hgone]; [done|].
    rewrite Hgone. by destruct (SqliteDb_db w). }
  assert (Hnext : forall w2,
            SqliteDb_db w2 = Some db ->
            fs_existsSync (SqliteDb_indexSqlitePath w2) (env w2) = true ->
            get w2 = (Ok (Some db), w2)).
  { intros w2 Hdb2 Hfile. by rewrite get_run, Hdb2, Hfile. }
  rewrite Hget, reopen_run, Hfolder. cbv zeta. rewrite Hopen.
  destruct Htables as [Hfirst|[Hfirst Hsecond]].
  - rewrite Hfirst. eexists. split; [reflexivity|]. simpl.
    do 3 (split; [done|]). intros w2 Hdb2 _ Hfile. by apply Hnext.
  - rewrite Hfirst, Hsecond. eexists. split; [reflexivity|]. simpl.
    do 3 (split; [done|]). intros w2 Hdb2 _ Hfile. by apply Hnext.
Qed.

(** X16. The path is stored before the store is opened: when a handle is
    cached, its file is gone and the new [sqlite.open] throws, [get] throws
    that exception, keeps the old handle and has moved [indexSqlitePath] to
    the new path; from then on, as soon as a file exists at the new path,
    [get] returns the old handle without opening anything. *)
Theorem get_open_failed_old_handle_kept `{Host} (w : World) (folder : string)
    (old : DatabaseConnection) (e : exn) (env1 env2 : Env) :
  SqliteDb_db w = Some old ->
  fs_existsSync (SqliteDb_indexSqlitePath w) (env w) = false ->
  getIndexFolderPath (env w) = (Ok folder, env1) ->
  sqlite_open (path_join folder "autodev-index.sqlite") env1 = (Throw e, env2) ->
  exists w',
    get w = (Throw e, w')
    /\ SqliteDb_db w' = Some old
    /\ SqliteDb_indexSqlitePath w' = path_join folder "autodev-index.sqlite"
    /\ trace w' = trace w ++ [GetIndexFolderPath (Ok folder);
                              SqliteOpen (path_join folder "autodev-index.sqlite")
                                (Throw e)]
    /\ forall w2,
         SqliteDb_db w2 = SqliteDb_db w' ->
         SqliteDb_indexSqlitePath w2 = SqliteDb_indexSqlitePath w' ->
         fs_existsSync (path_join folder "autodev-index.sqlite") (env w2) = true ->
         get w2 = (Ok (Some old), w2).
Proof.
  intros Hold Hgone Hfolder Hopen.
  rewrite get_run, Hold, Hgone, reopen_run, Hfolder. cbv zeta. rewrite Hopen.
  eexists. split; [reflexivity|]. simpl. rewrite Hold.
  do 3 (split; [done|]).
  intros w2 Hdb2 Hpath2 Hfile. simpl in Hdb2, Hpath2.
  by rewrite get_run, Hdb2, Hpath2, Hfile.
Qed.

(** X17. What every [get] keeps: the trace only grows; a handle in
    [SqliteDb.db] is replaced at most, never removed; a [get] that returns
    gives the handle that is in [SqliteDb.db] afterwards; and a [get] that
    throws has just been answered with that exception by the index folder,
    by [sqlite.open] or by [db.exec]. *)
Theorem get_invariants `{Host} (w w' : World) (r : outcome (option DatabaseConnection)) :
  get w = (r, w') ->
  trace w `prefix_of` trace w'
  /\ (is_Some (SqliteDb_db w) -> is_Some (SqliteDb_db w'))
  /\ (forall x, r = Ok x -> x = SqliteDb_db w' /\ is_Some x)
  /\ (forall e, r = Throw e ->
        last (trace w') = Some (GetIndexFolderPath (Throw e))
        \/ (exists filename, last (trace w') = Some (SqliteOpen filename (Throw e)))
        \/ (exists db sql, last (trace w') = Some (DbExec db sql (Throw e)))).
Proof.
  rewrite get_run.
  assert (Hreopen : reopen w = (r, w') ->
    trace w `prefix_of` trace w'
    /\ (is_Some (SqliteDb_db w) -> is_Some (SqliteDb_db w'))
    /\ (forall x, r = Ok x -> x = SqliteDb_db w' /\ is_Some x)
    /\ (forall e, r = Throw e ->
          last (trace w') = Some (GetIndexFolderPath (Throw e))
          \/ (exists filename, last (trace w') = Some (SqliteOpen filename (Throw e)))
          \/ (exists db sql, last (trace w') = Some (DbExec db sql (Throw e))))).
  { rewrite reopen_run.
    destruct (getIndexFolderPath (env w)) as [[folder|e0] env1]; cbv zeta.
    2:{ intros Hrun. injection Hrun as <- <-. simpl.
        split; [by eexists|]. split; [done|]. split; [done|].
        intros e He. injection He as <-. left. by rewrite last_snoc. }
    destruct (sqlite_open _ env1) as [[db|e0] env2].
    2:{ intros Hrun. injection Hrun as <- <-. simpl.
        split; [by eexists|]. split; [done|]. split; [done|].
        intros e He. injection He as <-. right. left. eexists.
        by rewrite last_app_cons. }
    destruct (db_exec db sql_tag_catalog env2) as [[[]|e0] env3].
    2:{ intros Hrun. injection Hrun as <- <-. simpl.
        split; [by eexists|]. split; [by eauto|]. split; [done|].
        intros e He. injection He as <-. right. right. eexists _, _.
        by rewrite last_app_cons. }
    destruct (db_exec db sql_global_cache env3) as [[[]|e0] env4].
    2:{ intros Hrun. injection Hrun as <- <-. simpl.
        split; [by eexists|]. split; [by eauto|]. split; [done|].
        intros e He. injection He as <-. right. right. eexists _, _.
        by rewrite last_app_cons. }
    intros Hrun. injection Hrun as <- <-. simpl.
    split; [by eexists|]. split; [by eauto|].
    split; [|done]. intros x Hx. injection Hx as <-. by eauto. }
  destruct (SqliteDb_db w) as [db|] eqn:Hdb; [|exact Hreopen].
  destruct (fs_existsSync _ _); [|exact Hreopen].
  intros Hrun. injection Hrun as <- <-.
  split; [done|]. split; [done|]. split; [|done].
  intros x Hx. injection Hx as <-. rewrite Hdb. by eauto.
Qed.

(** ** The event stream of [ChatDeepseek] *)

Lemma length_append (s t : string) :
  String.length (s +:+ t) = (String.length s + String.length t)%nat.
Proof.
  induction s as [|c s IH]; [done|]. rewrite append_cons. simpl. by rewrite IH.
Qed.

Lemma take_all (s : string) : JsStr.take (String.length s) s = s.
Proof. induction s as [|c s IH]; simpl; [done | by rewrite IH]. Qed.

Lemma take_app (s t : string) : JsStr.take (String.length s) (s +:+ t) = s.
Proof.
  induction s as [|c s IH]; [by destruct t|]. rewrite append_cons. simpl.
  by rewrite IH.
Qed.

Lemma drop_app (s t : string) : JsStr.drop (String.length s) (s +:+ t) = t.
Proof.
  induction s as [|c s IH]; [by destruct t|]. rewrite append_cons. simpl.
  by rewrite IH.
Qed.

Lemma length_drop (n : nat) (s : string) :
  String.length (JsStr.drop n s) = (String.length s - n)%nat.
Proof.
  revert s. induction n as [|n IH]; intros [|c s]; simpl; done.
Qed.

Lemma drop_ge (n : nat) (s : string) :
  (String.length s <= n)%nat -> JsStr.drop n s = "".
Proof.
  revert s. induction n as [|n IH]; intros [|c s]; simpl; try done; try lia.
  intros Hle. apply IH. lia.
Qed.

(** [s.slice(k)] for an index that is not negative. *)
Lemma slice_from (s : string) (k : nat) :
  JsStr.slice s (Z.of_nat k) None = JsStr.drop k s.
Proof.
  unfold JsStr.slice, JsStr.clamp.
  replace (Z.of_nat k <? 0) with false by (symmetry; apply Z.ltb_ge; lia).
  rewrite Nat2Z.id.
  destruct (Nat.le_gt_cases k (String.length s)) as [Hle|Hgt].
  - rewrite Nat.min_l by done.
    rewrite <- (length_drop k s). apply take_all.
  - rewrite Nat.min_r by lia. rewrite Nat.sub_diag.
    rewrite (drop_ge k) by lia. by destruct (JsStr.drop _ s).
Qed.

(** [s.slice(0, k)] on a string that has [k] code units before [t]. *)
Lemma slice_to (s t : string) :
  JsStr.slice (s +:+ t) 0 (Some (Z.of_nat (String.length s))) = s.
Proof.
  unfold JsStr.slice, JsStr.clamp. simpl.
  replace (Z.of_nat (String.length s) <? 0) with false
    by (symmetry; apply Z.ltb_ge; lia).
  rewrite Nat2Z.id, Nat.min_l by (rewrite length_append; lia).
  rewrite Nat.sub_0_r. apply take_app.
Qed.

(** Where [indexOf] finds the code unit, or that it is not there. *)
Lemma indexOf_from_spec (c : ascii) (s : string) (k : Z) :
  0 <= k ->
  (occurs c s = false /\ JsStr.indexOf_from c s k = -1)
  \/ exists line rest,
       s = line +:+ String c rest
       /\ occurs c line = false
       /\ JsStr.indexOf_from c s k = k + Z.of_nat (String.length line).
Proof.
  revert k. induction s as [|c' s IH]; intros k Hk; simpl; [by left|].
  destruct (Ascii.eqb c' c) eqn:Hc.
  - apply Ascii.eqb_eq in Hc as ->. right. exists "", s. simpl.
    split; [done|]. split; [done | lia].
  - destruct (IH (k + 1)) as [[Hno Hidx]|(line & rest & -> & Hno & Hidx)]; [lia| |].
    + left. by rewrite Hno.
    + right. exists (String c' line), rest. rewrite append_cons. simpl.
      rewrite Hc, Hno. split; [done|]. split; [done | lia].
Qed.

Lemma split_no_occurrence (c : ascii) (s : string) :
  occurs c s = false -> Js.split c s = [s].
Proof.
  intros Hno. rewrite <- (append_nil_r s) at 1.
  rewrite split_app_piece by done. simpl. by rewrite append_nil_r.
Qed.

Lemma split_first_line (c : ascii) (line rest : string) :
  occurs c line = false ->
  Js.split c (line +:+ String c rest) = line :: Js.split c rest.
Proof.
  intros Hno. rewrite split_app_piece by done. rewrite split_sep.
  by rewrite append_nil_r.
Qed.

Lemma removelast_cons {A} (x : A) (l : list A) :
  l ≠ [] -> removelast (x :: l) = x :: removelast l.
Proof. by destruct l. Qed.

Lemma last_cons_ne {A} (x d : A) (l : list A) :
  l ≠ [] -> List.last (x :: l) d = List.last l d.
Proof. by destruct l. Qed.

Lemma deliver_app {St} (onmessage : option (ChatDeepseek.callback St))
    (first rest : list string) (events : list string) (s : St) :
  deliver onmessage (first ++ rest) events s
  = match deliver onmessage first events s with
    | (Ok _, (events', s')) => deliver onmessage rest events' s'
    | (Throw e, after) => (Throw e, after)
    end.
Proof.
  revert events s. induction first as [|payload first IH]; intros events s; [done|].
  simpl. destruct (ChatDeepseek.send onmessage payload events s)
    as [[[]|e] [events' s']]; [apply IH | done].
Qed.

Lemma line_event_cases (line : string) :
  line_event line
  = if JsStr.startsWith line "data:"
    then [Js.trim (JsStr.slice line (Z.of_nat (String.length "data:")) None)]
    else [].
Proof.
  unfold line_event. change (Z.of_nat (String.length "data:")) with (Z.of_nat 5).
  by rewrite slice_from.
Qed.

(** The inner loop, with fuel above the length of [data]: the payloads of
    the complete lines are handed over, up to the first on which the
    callback throws; when it does not, the incomplete line is left in
    [data]. *)
Lemma process_spec {St} (fuel : nat) (onmessage : option (ChatDeepseek.callback St))
    (data : string) (events : list string) (s : St) :
  (String.length data < fuel)%nat ->
  ChatDeepseek.process fuel onmessage data events s
  = Some match deliver onmessage (flat_map line_event (complete_lines data))
                 events s with
         | (Ok _, after) => (Ok (List.last (Js.split JsStr.LF data) ""), after)
         | (Throw e, after) => (Throw e, after)
         end.
Proof.
  revert data events s. induction fuel as [|fuel IH]; intros data events s Hfuel;
    [lia|].
  simpl. unfold JsStr.indexOf.
  destruct (indexOf_from_spec JsStr.LF data 0)
    as [[Hno Hidx]|(line & rest & -> & Hno & Hidx)]; [lia| |].
  - rewrite Hidx. simpl. unfold complete_lines.
    by rewrite split_no_occurrence.
  - rewrite Hidx. rewrite Z.add_0_l.
    replace (Z.of_nat (String.length line) =? -1) with false
      by (symmetry; apply Z.eqb_neq; lia).
    rewrite slice_to.
    replace (Z.of_nat (String.length line) + 1)
      with (Z.of_nat (S (String.length line))) by lia.
    rewrite (slice_from (line +:+ String JsStr.LF rest) (S (String.length line))).
    assert (JsStr.drop (S (String.length line)) (line +:+ String JsStr.LF rest) = rest)
      as ->.
    { replace (S (String.length line))
        with (String.length (line +:+ String JsStr.LF "")).
      - rewrite <- (append_nil_l rest) at 1.
        rewrite <- append_cons, <- append_assoc. apply drop_app.
      - rewrite length_append. simpl. lia. }
    rewrite length_append in Hfuel. simpl in Hfuel.
    unfold complete_lines. rewrite split_first_line by done.
    rewrite removelast_cons, last_cons_ne by apply split_not_nil.
    change (flat_map line_event (line :: removelast (Js.split JsStr.LF rest)))
      with (line_event line
            ++ flat_map line_event (removelast (Js.split JsStr.LF rest))).
    rewrite deliver_app, line_event_cases.
    fold (complete_lines rest).
    destruct (JsStr.startsWith line "data:").
    + cbn [deliver].
      destruct (ChatDeepseek.send onmessage _ events s) as [[[]|e] [events' s']];
        [|done].
      rewrite IH by lia. done.
    + cbn [deliver]. rewrite IH by lia. done.
Qed.

Lemma split_cons_other (c x : ascii) (s : string) :
  Ascii.eqb x c = false ->
  Js.split c (String x s)
  = match Js.split c s with
    | [] => [String x ""]
    | piece :: pieces => String x piece :: pieces
    end.
Proof. intros Hx. simpl. by rewrite Hx. Qed.

(** Splitting a text that goes on: the complete lines of the first part
    stay, and its incomplete line is continued. *)
Lemma split_app (c : ascii) (a b : string) :
  Js.split c (a +:+ b)
  = removelast (Js.split c a) ++ Js.split c (List.last (Js.split c a) "" +:+ b).
Proof.
  induction a as [|x a IH]; [done|]. rewrite append_cons.
  destruct (Ascii.eqb x c) eqn:Hx.
  - apply Ascii.eqb_eq in Hx as ->. rewrite !split_sep.
    rewrite removelast_cons, last_cons_ne by apply split_not_nil.
    by rewrite IH.
  - rewrite !split_cons_other by done. rewrite IH.
    destruct (Js.split c a) as [|piece pieces] eqn:Hsplit;
      [by apply split_not_nil in Hsplit|].
    destruct pieces as [|piece' pieces].
    + cbn [removelast List.last app].
      rewrite append_cons, split_cons_other by done. done.
    + rewrite !removelast_cons, !last_cons_ne by done. done.
Qed.

Lemma last_split_no_sep (c : ascii) (s : string) :
  occurs c (List.last (Js.split c s) "") = false.
Proof.
  pose proof (split_no_sep c s) as Hall.
  pose proof (split_not_nil c s) as Hne.
  induction Hall as [|piece pieces Hpiece Hall IH]; [done|].
  destruct pieces as [|piece' pieces]; [done|].
  rewrite last_cons_ne by done. by apply IH.
Qed.

Lemma complete_lines_app (a b : string) :
  complete_lines (a +:+ b)
  = complete_lines a ++ complete_lines (List.last (Js.split JsStr.LF a) "" +:+ b).
Proof.
  unfold complete_lines. rewrite split_app.
  apply removelast_app, split_not_nil.
Qed.

Lemma complete_lines_no_LF (s : string) :
  occurs JsStr.LF s = false -> complete_lines s = [].
Proof. intros Hno. unfold complete_lines. by rewrite split_no_occurrence. Qed.

(** The outer loop, from a [data] without line feed: the payloads of the
    complete lines of [data] followed by the text still to come are handed
    over, up to the first on which the callback throws. *)
Lemma read_spec {V St} (decode : V -> string)
    (onmessage : option (ChatDeepseek.callback St)) (reads : list V)
    (data : string) (events : list string) (s : St) :
  occurs JsStr.LF data = false ->
  ChatDeepseek.read decode onmessage reads data events s
  = Some (deliver onmessage
            (flat_map line_event (complete_lines (data +:+ stream_text decode reads)))
            events s).
Proof.
  revert data events s.
  induction reads as [|value rest IH]; intros data events s Hdata.
  - simpl. by rewrite append_nil_r, complete_lines_no_LF.
  - cbn [ChatDeepseek.read stream_text foldr].
    rewrite process_spec by lia.
    fold (stream_text decode rest).
    rewrite <- append_assoc, (complete_lines_app (data +:+ decode value)).
    rewrite flat_map_app, deliver_app.
    destruct (deliver onmessage
                (flat_map line_event (complete_lines (data +:+ decode value)))
                events s) as [[[]|e] [events' s']]; [|done].
    apply IH, last_split_no_sep.
Qed.

Lemma stream_text_app {V} (decode : V -> string) (reads reads' : list V) :
  stream_text decode (reads ++ reads')
  = stream_text decode reads +:+ stream_text decode reads'.
Proof.
  induction reads as [|value rest IH]; [done|].
  cbn [app stream_text foldr]. fold (stream_text decode (rest ++ reads')).
  fold (stream_text decode rest). by rewrite IH, append_assoc.
Qed.

(** A callback that returns on every payload takes them all. *)
Lemma deliver_all {St} (f : ChatDeepseek.callback St) (payloads events : list string)
    (s : St) :
  (forall payload s0, exists s1, f payload s0 = (Ok tt, s1)) ->
  exists s', deliver (Some f) payloads events s = (Ok tt, (events ++ payloads, s')).
Proof.
  intros Hreturns. revert events s.
  induction payloads as [|payload rest IH]; intros events s; simpl.
  - exists s. by rewrite app_nil_r.
  - destruct (Hreturns payload s) as [s1 ->].
    destruct (IH (events ++ [payload]) s1) as [s' ->].
    exists s'. by rewrite <- app_assoc.
Qed.

(** X18. The reader loop never runs out of steps.  It hands to
    [onmessage], in order, the payloads of the complete lines of the whole
    text (one for each line that starts with [data:]: the rest of the
    line, trimmed), up to the first payload on which the callback throws:
    that exception ends the run and no later line is handed over.  A
    callback that returns on every payload gets them all, and the run
    returns; without a callback nothing is sent.  So two streams with the
    same text give the same run, however the text is cut into reads. *)
Theorem stream_events_of_lines {V St} (decode : V -> string)
    (onmessage : option (ChatDeepseek.callback St)) (reads : list V) (s : St) :
  ChatDeepseek.stream_events decode onmessage reads s
  = Some (deliver onmessage
            (flat_map line_event (complete_lines (stream_text decode reads))) [] s)
  /\ (forall f,
        onmessage = Some f ->
        (forall payload s0, exists s1, f payload s0 = (Ok tt, s1)) ->
        exists s',
          ChatDeepseek.stream_events decode onmessage reads s
          = Some (Ok tt,
                  (flat_map line_event (complete_lines (stream_text decode reads)),
                   s')))
  /\ (onmessage = None ->
      ChatDeepseek.stream_events decode onmessage reads s = Some (Ok tt, ([], s)))
  /\ (forall reads' : list V,
        stream_text decode reads' = stream_text decode reads ->
        ChatDeepseek.stream_events decode onmessage reads' s
        = ChatDeepseek.stream_events decode onmessage reads s).
Proof.
  unfold ChatDeepseek.stream_events. rewrite read_spec by done.
  rewrite append_nil_l. split; [done|]. split; [|split].
  - intros f -> Hreturns.
    destruct (deliver_all f
                (flat_map line_event (complete_lines (stream_text decode reads)))
                [] s Hreturns) as [s' ->].
    by exists s'.
  - intros ->. f_equal.
    generalize (flat_map line_event (complete_lines (stream_text decode reads))).
    intros payloads. by induction payloads.
  - intros reads' Htext. rewrite read_spec by done.
    by rewrite append_nil_l, Htext.
Qed.

(** X19. What comes after the last line feed is never sent: a last read
    without line feed adds no event, even when it completes the text of a
    [data:] line, whatever the callback does. *)
Theorem stream_events_tail_dropped {V St} (decode : V -> string)
    (onmessage : option (ChatDeepseek.callback St)) (reads : list V)
    (value : V) (s : St) :
  occurs JsStr.LF (decode value) = false ->
  ChatDeepseek.stream_events decode onmessage (reads ++ [value]) s
  = ChatDeepseek.stream_events decode onmessage reads s.
Proof.
  intros Htail. unfold ChatDeepseek.stream_events.
  rewrite !read_spec by done. rewrite !append_nil_l, stream_text_app.
  rewrite complete_lines_app.
  rewrite (complete_lines_no_LF (_ +:+ _)); [by rewrite app_nil_r|].
  cbn [stream_text foldr]. rewrite append_nil_r.
  pose proof (last_split_no_sep JsStr.LF (stream_text decode reads)) as Hlast.
  revert Hlast Htail.
  generalize (List.last (Js.split JsStr.LF (stream_text decode reads)) "").
  intros t Ht Hvalue. induction t as [|c t IHt]; [done|].
  rewrite append_cons. simpl in *.
  apply orb_false_iff in Ht as [-> Ht]. by apply IHt.
Qed.

(** ** The further properties at work on the small host *)

(** A run on the four commits with a cap of 2. *)
Lemma retrieveGit_cap_witness :
  exists calls,
    trace (@retrieveGit Demo.host Demo.git (Demo.term "login bug") None Demo.w0).2
    = trace Demo.w0
      ++ GetHistoryCommits (git_getHistoryCommits Demo.git (env Demo.w0)).1 :: calls
    /\ Forall is_diff_call calls
    /\ Z.of_nat (length calls) <= 2
    /\ forall chunks, Ok [Demo.chunk_a] = Ok chunks -> Z.of_nat (length chunks) <= 2.
Proof.
  refine (retrieveGit_cap (H := Demo.host) Demo.git (Demo.term "login bug") None
            Demo.w0 _ (Ok [Demo.chunk_a]) eq_refl _).
  discriminate.
Defined.

(** Three scores are above 3/10 and the cap is -1: the last of the
    ranking is left out and two diffs are fetched. *)
Lemma retrieveGit_fetch_count_witness :
  exists (commits : list Commit.t) (answers : list answer),
    trace (@retrieveGit Demo.host Demo.git (Demo2.term_n "login bug" (-1))
             (Some (Js.Finite (3 # 10))) Demo.w0).2
    = trace Demo.w0 ++ GetHistoryCommits (Ok commits) :: map fetch_event answers
    /\ length answers
       = Z.to_nat
           (Z.max
              (Z.of_nat
                 (length
                    (List.filter
                       (fun score => Js.gt score (Js.Finite (3 # 10)))
                       (@tfidf_search Demo.host (map Commit.message commits)
                          "login bug")))
               + -1) 0).
Proof.
  exact (retrieveGit_fetch_count (H := Demo.host) Demo.git
           (Demo2.term_n "login bug" (-1)) (Some (Js.Finite (3 # 10))) Demo.w0 _
           [Demo.chunk_a] eq_refl).
Defined.

(** No commit message holds a word of the query. *)
Lemma retrieveGit_nothing_to_fetch_witness :
  @retrieveGit Demo.host Demo.git (Demo.term "release notes") None Demo.w0
  = (Ok [],
     @mkWorld Demo.host None "/home/dev/.autodev/index/autodev-index.sqlite"
       [GetHistoryCommits (Ok Demo.commits)] Demo.outside).
Proof.
  refine (retrieveGit_nothing_to_fetch (H := Demo.host) Demo.git
            (Demo.term "release notes") None Demo.w0 Demo.commits Demo.outside
            eq_refl _).
  left. intros score Hin.
  repeat (apply elem_of_cons in Hin as [->|Hin]; [reflexivity|]).
  inversion Hin.
Defined.

(** The chunk of the commit [a]. *)
Lemma retrieveGit_chunk_shape_witness :
  Chunk.language Demo.chunk_a = ""
  /\ Chunk.digest Demo.chunk_a = Chunk.filepath Demo.chunk_a
  /\ Chunk.startLine Demo.chunk_a = 0
  /\ Chunk.endLine Demo.chunk_a = 0
  /\ Chunk.index Demo.chunk_a = 0
  /\ Chunk.content Demo.chunk_a ≠ ""
  /\ GetChangeByHash (Chunk.filepath Demo.chunk_a) (Ok (Chunk.content Demo.chunk_a))
     ∈ trace (@retrieveGit Demo.host Demo.git (Demo.term "login bug") None
                Demo.w0).2.
Proof.
  refine (retrieveGit_chunk_shape (H := Demo.host) Demo.git (Demo.term "login bug")
            None Demo.w0 _ [Demo.chunk_a] eq_refl Demo.chunk_a _).
  by left.
Defined.

(** The repository cannot show [d]: what the run throws is what that call
    threw. *)
Lemma retrieveGit_throws_only_witness :
  exists calls,
    trace (@retrieveGit Demo.host Demo.git_no_diff (Demo.term "login bug") None
             Demo.w0).2
    = trace Demo.w0 ++ calls
    /\ ((exists ev, ev ∈ calls /\ git_raised ev (Error "bad object d"))
        \/ (Error "bad object d" = undefined_commit
            /\ exists commits i score,
                 (git_getHistoryCommits Demo.git_no_diff (env Demo.w0)).1 = Ok commits
                 /\ @tfidf_search Demo.host (map Commit.message commits) "login bug"
                    !! i = Some score
                 /\ Js.gt score Js.lit_0_6 = true
                 /\ (length commits <= i)%nat))
    /\ ((forall docs query,
           length (@tfidf_search Demo.host docs query) = length docs) ->
        exists ev, ev ∈ calls /\ git_raised ev (Error "bad object d")).
Proof.
  exact (retrieveGit_throws_only (H := Demo.host) Demo.git_no_diff
           (Demo.term "login bug") None Demo.w0 _ (Error "bad object d") eq_refl).
Defined.

(** From a threshold of 3/10 to one of 6/10: the commit [c] goes, [a] and
    [d] stay in their order. *)
Lemma passing_indexes_raise_witness :
  passing_indexes Demo.scores (Js.Finite (6 # 10))
  = filter (fun k => Js.gt (Js.at_number Demo.scores k) (Js.Finite (6 # 10)) = true)
      (passing_indexes Demo.scores (Js.Finite (3 # 10))).
Proof.
  exact (passing_indexes_raise Demo.scores (Js.Finite (3 # 10)) (Js.Finite (6 # 10))
           eq_refl).
Defined.

(** With a cap of 3 the run returns the chunks of [a] and [c]; the four
    hashes differ, and [deduplicateChunks] keeps both. *)
Lemma retrieveGit_deduplicateChunks_witness :
  NoDup (map chunk_key
           [Demo.chunk_a; commit_chunk (Commit.mk "c" "fix login redirect") "diff of c"])
  /\ deduplicateChunks
       [Demo.chunk_a; commit_chunk (Commit.mk "c" "fix login redirect") "diff of c"]
     = [Demo.chunk_a; commit_chunk (Commit.mk "c" "fix login redirect") "diff of c"].
Proof.
  refine (retrieveGit_deduplicateChunks (H := Demo.host) Demo.git
            (Demo2.term_n "login bug" 3) (Some (Js.Finite (3 # 10))) Demo.w0 _
            _ eq_refl _).
  intros commits Hcommits. injection Hcommits as <-.
  apply (bool_decide_unpack _). exact I.
Defined.

(** Tabs and line ends only. *)
Lemma retrieveFts_calls_engine_iff_witness :
  @retrieveFts Demo.host (Demo.term (String "009" (String "010" ""))) Demo.w0
  = (Ok [], Demo.w0)
  /\ exists r,
       trace (@retrieveFts Demo.host (Demo.term "login") Demo.w0).2
       = trace Demo.w0
         ++ FtsRetrieve (retrieveFts_args (Demo.term "login")) r
            :: match r with
               | Ok _ => []
               | Throw e => [ConsoleWarn "Error retrieving from FTS:" e]
               end.
Proof.
  split.
  - exact (proj1 (retrieveFts_calls_engine_iff (H := Demo.host)
                    (Demo.term (String "009" (String "010" ""))) Demo.w0) eq_refl).
  - exact (proj2 (retrieveFts_calls_engine_iff (H := Demo.host)
                    (Demo.term "login") Demo.w0) eq_refl).
Defined.

(** Two spaces in front, a tab behind. *)
Lemma retrieveFts_padded_witness :
  @retrieveFts Demo.host
    (RetrievalQueryTerm.mk ("  " +:+ "login bug" +:+ String "009" "")
       ["main"] 2 None None) Demo.w0
  = @retrieveFts Demo.host
      (RetrievalQueryTerm.mk "login bug" ["main"] 2 None None) Demo.w0.
Proof.
  exact (retrieveFts_padded (H := Demo.host) "  " "login bug" (String "009" "")
           ["main"] 2 None None Demo.w0 eq_refl eq_refl).
Defined.

(** The store opens and refuses the second table: the handle 1 is cached,
    and the next [get] returns it. *)
Lemma get_tables_failed_handle_kept_witness :
  exists w',
    @get (Demo2.store_host false true) Demo2.w_locked
    = (Throw (Error "database is locked"), w')
    /\ SqliteDb_db w' = Some 1%nat
    /\ SqliteDb_indexSqlitePath w' = "/home/dev/.autodev/index/autodev-index.sqlite"
    /\ env w'
       = Demo.mk_env ["/home/dev/.autodev/index/autodev-index.sqlite"] 2 false
    /\ forall w2,
         SqliteDb_db w2 = SqliteDb_db w' ->
         SqliteDb_indexSqlitePath w2 = SqliteDb_indexSqlitePath w' ->
         @fs_existsSync (Demo2.store_host false true)
           (SqliteDb_indexSqlitePath w2) (env w2) = true ->
         @get (Demo2.store_host false true) w2 = (Ok (Some 1%nat), w2).
Proof.
  refine (get_tables_failed_handle_kept (H := Demo2.store_host false true)
            Demo2.w_locked "/home/dev/.autodev/index" 1%nat
            (Error "database is locked") Demo.outside
            (Demo.mk_env ["/home/dev/.autodev/index/autodev-index.sqlite"] 2 false)
            (Demo.mk_env ["/home/dev/.autodev/index/autodev-index.sqlite"] 2 false)
            (Demo.mk_env ["/home/dev/.autodev/index/autodev-index.sqlite"] 2 false)
            (or_introl eq_refl) eq_refl eq_refl _).
  right. split; reflexivity.
Defined.

(** The handle 7 was opened in another folder and its file is gone; the
    store does not open: 7 stays cached, for the new path. *)
Lemma get_open_failed_old_handle_kept_witness :
  exists w',
    @get (Demo2.store_host true false) Demo2.w_stale
    = (Throw (Error "unable to open database file"), w')
    /\ SqliteDb_db w' = Some 7%nat
    /\ SqliteDb_indexSqlitePath w' = "/home/dev/.autodev/index/autodev-index.sqlite"
    /\ trace w'
       = trace Demo2.w_stale
         ++ [GetIndexFolderPath (Ok "/home/dev/.autodev/index");
             SqliteOpen "/home/dev/.autodev/index/autodev-index.sqlite"
               (Throw (Error "unable to open database file"))]
    /\ forall w2,
         SqliteDb_db w2 = SqliteDb_db w' ->
         SqliteDb_indexSqlitePath w2 = SqliteDb_indexSqlitePath w' ->
         @fs_existsSync (Demo2.store_host true false)
           "/home/dev/.autodev/index/autodev-index.sqlite" (env w2) = true ->
         @get (Demo2.store_host true false) w2 = (Ok (Some 7%nat), w2).
Proof.
  exact (get_open_failed_old_handle_kept (H := Demo2.store_host true false)
           Demo2.w_stale "/home/dev/.autodev/index" 7%nat
           (Error "unable to open database file") Demo.outside Demo.outside
           eq_refl eq_refl eq_refl eq_refl).
Defined.

(** A first [get] on the empty outside. *)
Lemma get_invariants_witness :
  trace Demo.w0 `prefix_of` trace (@get Demo.host Demo.w0).2
  /\ (is_Some (SqliteDb_db Demo.w0) -> is_Some (SqliteDb_db (@get Demo.host Demo.w0).2))
  /\ (forall x, Ok (Some 1%nat) = Ok x ->
        x = SqliteDb_db (@get Demo.host Demo.w0).2 /\ is_Some x)
  /\ (forall e, Ok (Some 1%nat) = Throw e ->
        last (trace (@get Demo.host Demo.w0).2) = Some (GetIndexFolderPath (Throw e))
        \/ (exists filename,
              last (trace (@get Demo.host Demo.w0).2)
              = Some (SqliteOpen filename (Throw e)))
        \/ (exists db sql,
              last (trace (@get Demo.host Demo.w0).2)
              = Some (DbExec db sql (Throw e)))).
Proof.
  exact (get_invariants (H := Demo.host) Demo.w0 _ (Ok (Some 1%nat)) eq_refl).
Defined.

(** The callback refuses the second payload: the run throws there, with
    both payloads handed over and one taken; a callback that takes
    everything gets both, and the run returns. *)
Lemma stream_events_of_lines_witness :
  ChatDeepseek.stream_events id (Some Demo2.parse) Demo2.reads 0%nat
  = Some (Throw (Error "Unexpected token in JSON at position 0"),
          (["{a}"; "b"], 1%nat))
  /\ exists count,
       ChatDeepseek.stream_events id (Some Demo2.collect) Demo2.reads 0%nat
       = Some (Ok tt,
               (flat_map line_event (complete_lines (stream_text id Demo2.reads)),
                count)).
Proof.
  split.
  - exact (proj1 (stream_events_of_lines id (Some Demo2.parse) Demo2.reads 0%nat)).
  - refine (proj1 (proj2 (stream_events_of_lines id (Some Demo2.collect)
                            Demo2.reads 0%nat)) Demo2.collect eq_refl _).
    intros payload s0. by eexists.
Defined.

(** The stream ends on a [data:] line without line feed: it is not sent. *)
Lemma stream_events_tail_dropped_witness :
  ChatDeepseek.stream_events id (Some Demo2.collect) Demo2.reads 0%nat
  = Some (Ok tt, (["{a}"; "b"], 2%nat))
  /\ ChatDeepseek.stream_events id (Some Demo2.collect)
       (Demo2.reads ++ [Demo2.tail]) 0%nat
     = ChatDeepseek.stream_events id (Some Demo2.collect) Demo2.reads 0%nat.
Proof.
  split; [reflexivity|].
  exact (stream_events_tail_dropped id (Some Demo2.collect) Demo2.reads Demo2.tail
           0%nat eq_refl).
Defined.
